(** * chessGo: the game-state model, the move generator and the wire notation

    A shallow embedding of [main.go].  Go's [int] and [rune] values are
    integers of [Z] (every value computed here from in-range squares stays far
    from the 64-bit limits), a Go [string] is a sequence of bytes ([string] of
    the standard library, one [ascii] per byte), the [[8][8]*Piece] array is a
    list of rows whose cells are [option Piece] ([None] is the [nil] pointer),
    and [map[string]bool] is a [gmap string bool].  A function that can hit a
    run-time panic (an index out of range) returns [option]: [None] is the
    panic.  Methods on [*Game] take the game and return the updated one. *)

From Stdlib Require Import ZArith Ascii String List Lia.
From stdpp Require Import base option list strings gmap pretty.

Local Open Scope string_scope.
Local Open Scope Z_scope.

(** ** Data model *)

(** [type Piece struct { color string; symbol rune }] *)
Record Piece := mkPiece { color : string; symbol : Z }.

(** The field [color], for use where a parameter named [color] hides it. *)
Abbreviation colorOf := color.

Abbreviation Board := (list (list (option Piece))).

(** [type Theme struct]: only the name is kept, the colour attributes are
    inputs of the terminal library. *)
Record Theme := mkTheme { Name : string }.

Definition themes : list Theme :=
  [mkTheme "Walnut"; mkTheme "Ocean"; mkTheme "Forest"; mkTheme "Stone";
   mkTheme "Terminal"].

(** [type Game struct]; the mutex [lock] has no content of its own. *)
Record Game := mkGame {
  board : Board;
  currentPlayer : string;
  gameOver : bool;
  cursorX : Z;
  cursorY : Z;
  selectedX : Z;
  selectedY : Z;
  message : string;
  legalMoves : gmap string bool;
  currentThemeIndex : Z;
  squareWidth : Z;
  squareHeight : Z
}.

Definition withBoard (b : Board) (g : Game) : Game :=
  mkGame b (currentPlayer g) (gameOver g) (cursorX g) (cursorY g) (selectedX g)
    (selectedY g) (message g) (legalMoves g) (currentThemeIndex g)
    (squareWidth g) (squareHeight g).

Definition withCurrentPlayer (p : string) (g : Game) : Game :=
  mkGame (board g) p (gameOver g) (cursorX g) (cursorY g) (selectedX g)
    (selectedY g) (message g) (legalMoves g) (currentThemeIndex g)
    (squareWidth g) (squareHeight g).

Definition withGameOver (o : bool) (g : Game) : Game :=
  mkGame (board g) (currentPlayer g) o (cursorX g) (cursorY g) (selectedX g)
    (selectedY g) (message g) (legalMoves g) (currentThemeIndex g)
    (squareWidth g) (squareHeight g).

Definition withCursor (x y : Z) (g : Game) : Game :=
  mkGame (board g) (currentPlayer g) (gameOver g) x y (selectedX g)
    (selectedY g) (message g) (legalMoves g) (currentThemeIndex g)
    (squareWidth g) (squareHeight g).

Definition withSelected (x y : Z) (g : Game) : Game :=
  mkGame (board g) (currentPlayer g) (gameOver g) (cursorX g) (cursorY g) x y
    (message g) (legalMoves g) (currentThemeIndex g)
    (squareWidth g) (squareHeight g).

Definition withMessage (m : string) (g : Game) : Game :=
  mkGame (board g) (currentPlayer g) (gameOver g) (cursorX g) (cursorY g)
    (selectedX g) (selectedY g) m (legalMoves g) (currentThemeIndex g)
    (squareWidth g) (squareHeight g).

Definition withLegalMoves (m : gmap string bool) (g : Game) : Game :=
  mkGame (board g) (currentPlayer g) (gameOver g) (cursorX g) (cursorY g)
    (selectedX g) (selectedY g) (message g) m (currentThemeIndex g)
    (squareWidth g) (squareHeight g).

Definition withThemeIndex (i : Z) (g : Game) : Game :=
  mkGame (board g) (currentPlayer g) (gameOver g) (cursorX g) (cursorY g)
    (selectedX g) (selectedY g) (message g) (legalMoves g) i
    (squareWidth g) (squareHeight g).

(** [var pieces = map[string]rune{...}]: the code points of the twelve chess
    symbols U+2654 .. U+265F. *)
Definition piecesTable : gmap string Z :=
  list_to_map
    [("white_king", 9812); ("white_queen", 9813); ("white_rook", 9814);
     ("white_bishop", 9815); ("white_knight", 9816); ("white_pawn", 9817);
     ("black_king", 9818); ("black_queen", 9819); ("black_rook", 9820);
     ("black_bishop", 9821); ("black_knight", 9822); ("black_pawn", 9823)].

(** [pieces[k]]: a Go map read gives the zero value for an absent key. *)
Definition pieces (k : string) : Z := default 0 (piecesTable !! k).
Global Arguments pieces : simpl never.

(** [g.legalMoves[k]]: absent keys read as [false]. *)
Definition mapGet (m : gmap string bool) (k : string) : bool :=
  default false (m !! k).

(** ** Array access *)

(** [a[i]] on a Go array or slice: a panic outside [0 <= i < len(a)]. *)
Definition index {A} (l : list A) (i : Z) : option A :=
  if bool_decide (0 <= i) then l !! Z.to_nat i else None.

(** [b[y][x]] *)
Definition boardAt (b : Board) (y x : Z) : option (option Piece) :=
  row ← index b y; index row x.

(** [b[y][x] = v] *)
Definition boardSet (b : Board) (y x : Z) (v : option Piece) : option Board :=
  row ← index b y;
  _ ← index row x;
  Some (<[Z.to_nat y := <[Z.to_nat x := v]> row]> b).

(** The shape of a [[8][8]*Piece] value. *)
Definition wfBoard (b : Board) : Prop :=
  length b = 8%nat ∧ Forall (λ row, length row = 8%nat) b.

Definition inRange (y x : Z) : Prop := 0 <= y < 8 ∧ 0 <= x < 8.

(** ** NewGame *)

Definition NewGame : Game :=
  let P c k := Some (mkPiece c (pieces k)) in
  let nilRow : list (option Piece) :=
    [None; None; None; None; None; None; None; None] in
  {| currentPlayer := "white";
     gameOver := false;
     cursorX := 0;
     cursorY := 0;
     selectedX := -1;
     selectedY := -1;
     message := "Welcome! White's turn. Press 'c' to change theme.";
     legalMoves := ∅;
     currentThemeIndex := 0;
     squareWidth := 8;
     squareHeight := 4;
     board :=
       [ [P "black" "black_rook"; P "black" "black_knight";
          P "black" "black_bishop"; P "black" "black_queen";
          P "black" "black_king"; P "black" "black_bishop";
          P "black" "black_knight"; P "black" "black_rook"];
         [P "black" "black_pawn"; P "black" "black_pawn";
          P "black" "black_pawn"; P "black" "black_pawn";
          P "black" "black_pawn"; P "black" "black_pawn";
          P "black" "black_pawn"; P "black" "black_pawn"];
         nilRow; nilRow; nilRow; nilRow;
         [P "white" "white_pawn"; P "white" "white_pawn";
          P "white" "white_pawn"; P "white" "white_pawn";
          P "white" "white_pawn"; P "white" "white_pawn";
          P "white" "white_pawn"; P "white" "white_pawn"];
         [P "white" "white_rook"; P "white" "white_knight";
          P "white" "white_bishop"; P "white" "white_queen";
          P "white" "white_king"; P "white" "white_bishop";
          P "white" "white_knight"; P "white" "white_rook"] ] |}.

(** ** applyMove *)

Definition applyMove (fromY fromX toY toX : Z) (g : Game) : option Game :=
  piece ← boardAt (board g) fromY fromX;
  targetPiece ← boardAt (board g) toY toX;
  let g :=
    match targetPiece with
    | Some t =>
        if (symbol t =? pieces "white_king") || (symbol t =? pieces "black_king")
        then withMessage ("Game Over! " +:+ currentPlayer g +:+ " wins.")
               (withGameOver true g)
        else g
    | None => g
    end in
  b1 ← boardSet (board g) toY toX piece;
  b2 ← boardSet b1 fromY fromX None;
  let g := withBoard b2 g in
  Some (if String.eqb (currentPlayer g) "white"
        then withMessage "Black's turn." (withCurrentPlayer "black" g)
        else withMessage "White's turn." (withCurrentPlayer "white" g)).

(** ** Text formatting used by the program *)

(** One byte of a Go string from its value. *)
Definition byte (z : Z) : ascii := ascii_of_N (Z.to_N (z mod 256)).

Definition byteVal (c : ascii) : Z := Z.of_N (N_of_ascii c).

(** Conversion to [rune] (a signed 32-bit integer), with its wrap-around. *)
Definition toRune (z : Z) : Z := (z + 2147483648) mod 4294967296 - 2147483648.

(** The verb [%c]: the UTF-8 encoding of a code point; a negative value, a
    surrogate or a value above U+10FFFF is printed as U+FFFD. *)
Definition fmtC (r : Z) : string :=
  let r :=
    if (r <? 0) || (1114111 <? r) || ((55296 <=? r) && (r <=? 57343))
    then 65533 else r in
  if r <=? 127 then String (byte r) ""
  else if r <=? 2047 then
    String (byte (Z.lor 192 (Z.shiftr r 6)))
      (String (byte (Z.lor 128 (Z.land r 63))) "")
  else if r <=? 65535 then
    String (byte (Z.lor 224 (Z.shiftr r 12)))
      (String (byte (Z.lor 128 (Z.land (Z.shiftr r 6) 63)))
         (String (byte (Z.lor 128 (Z.land r 63))) ""))
  else
    String (byte (Z.lor 240 (Z.shiftr r 18)))
      (String (byte (Z.lor 128 (Z.land (Z.shiftr r 12) 63)))
         (String (byte (Z.lor 128 (Z.land (Z.shiftr r 6) 63)))
            (String (byte (Z.lor 128 (Z.land r 63))) ""))).

(** The verb [%d] is the decimal printer [pretty] of stdpp.
    [fmt.Sprintf("%d,%d", x, y)], the key of a square in [legalMoves]. *)
Definition key (x y : Z) : string := pretty x +:+ "," +:+ pretty y.

(** [fmt.Sprintf("%c%d%c%d", 'a'+rune(fromX), 8-fromY, 'a'+rune(toX), 8-toY)],
    the notation built in [handleMouseClick]. *)
Definition encodeMove (fromY fromX toY toX : Z) : string :=
  fmtC (toRune (97 + toRune fromX)) +:+ pretty (8 - fromY)
  +:+ fmtC (toRune (97 + toRune toX)) +:+ pretty (8 - toY).

(** ** parseMove *)

(** [move[i]] as a byte value. *)
Definition byteAt (s : string) (i : nat) : option Z := byteVal <$> String.get i s.

(** Subtraction of two bytes, in [uint8]. *)
Definition byteSub (a b : Z) : Z := (a - b) mod 256.

Definition parseMove (move : string) : option (Z * Z * Z * Z * bool) :=
  if negb (Nat.eqb (String.length move) 4) then Some (0, 0, 0, 0, false)
  else
    m0 ← byteAt move 0;
    m1 ← byteAt move 1;
    m2 ← byteAt move 2;
    m3 ← byteAt move 3;
    let fromCol := byteSub m0 97 in
    let fromRow := 8 - byteSub m1 48 in
    let toCol := byteSub m2 97 in
    let toRow := 8 - byteSub m3 48 in
    if (fromCol <? 0) || (fromCol >? 7) || (fromRow <? 0) || (fromRow >? 7)
       || (toCol <? 0) || (toCol >? 7) || (toRow <? 0) || (toRow >? 7)
    then Some (0, 0, 0, 0, false)
    else Some (fromRow, fromCol, toRow, toCol, true).

(** ** Rule checking *)

(** [addMove]: the colour is not used by the source either. *)
Definition addMove (x y : Z) (color : string) (g : Game) : Game :=
  withLegalMoves (<[key x y := true]> (legalMoves g)) g.

(** A [for _, a := range l] loop whose body can panic. *)
Fixpoint forEach {A S} (l : list A) (body : A → S → option S) (s : S)
  : option S :=
  match l with
  | [] => Some s
  | a :: l' => s' ← body a s; forEach l' body s'
  end.

Definition onBoard (y x : Z) : bool :=
  (0 <=? x) && (x <? 8) && (0 <=? y) && (y <? 8).

Definition addPawnMoves (y x : Z) (color : string) (g : Game) : option Game :=
  let dir := if String.eqb color "black" then 1 else -1 in
  let startRow := if String.eqb color "black" then 1 else 6 in
  g ← (let ny := y + dir in
       if (0 <=? ny) && (ny <? 8) then
         c ← boardAt (board g) ny x;
         match c with
         | None =>
             let g := addMove x ny color g in
             if y =? startRow then
               let nny := y + 2 * dir in
               if (0 <=? nny) && (nny <? 8) then
                 c2 ← boardAt (board g) nny x;
                 match c2 with
                 | None => Some (addMove x nny color g)
                 | Some _ => Some g
                 end
               else Some g
             else Some g
         | Some _ => Some g
         end
       else Some g);
  forEach [-1; 1]
    (λ dx g,
       let nx := x + dx in
       let ny := y + dir in
       if onBoard ny nx then
         target ← boardAt (board g) ny nx;
         match target with
         | Some t =>
             if negb (String.eqb (colorOf t) color)
             then Some (addMove nx ny color g) else Some g
         | None => Some g
         end
       else Some g) g.

(** The inner loop [for d := 1; d < 8; d++] of [addSlidingMoves] along one
    direction; [ds] are the values of [d] still to run, and [break] ends the
    recursion. *)
Fixpoint slideRay (ds : list Z) (y x dy dx : Z) (color : string) (g : Game)
  : option Game :=
  match ds with
  | [] => Some g
  | d :: ds' =>
      let ny := y + d * dy in
      let nx := x + d * dx in
      if (nx <? 0) || (nx >=? 8) || (ny <? 0) || (ny >=? 8) then Some g
      else
        target ← boardAt (board g) ny nx;
        match target with
        | Some t =>
            if negb (String.eqb (colorOf t) color)
            then Some (addMove nx ny color g) else Some g
        | None => slideRay ds' y x dy dx color (addMove nx ny color g)
        end
  end.

Definition addSlidingMoves (y x : Z) (color : string) (yDirs xDirs : list Z)
  (g : Game) : option Game :=
  forEach (seqZ 0 (Z.of_nat (length yDirs)))
    (λ i g,
       dy ← index yDirs i;
       dx ← index xDirs i;
       slideRay (seqZ 1 7) y x dy dx color g) g.

Definition addKnightMoves (y x : Z) (color : string) (g : Game) : option Game :=
  let yMoves := [-2; -2; -1; -1; 1; 1; 2; 2] in
  let xMoves := [-1; 1; -2; 2; -2; 2; -1; 1] in
  forEach (seqZ 0 (Z.of_nat (length yMoves)))
    (λ i g,
       dy ← index yMoves i;
       dx ← index xMoves i;
       let ny := y + dy in
       let nx := x + dx in
       if onBoard ny nx then
         target ← boardAt (board g) ny nx;
         match target with
         | Some t =>
             if negb (String.eqb (colorOf t) color)
             then Some (addMove nx ny color g) else Some g
         | None => Some (addMove nx ny color g)
         end
       else Some g) g.

Definition addKingMoves (y x : Z) (color : string) (g : Game) : option Game :=
  forEach (seqZ (-1) 3)
    (λ dy g,
       forEach (seqZ (-1) 3)
         (λ dx g,
            if (dy =? 0) && (dx =? 0) then Some g
            else
              let ny := y + dy in
              let nx := x + dx in
              if onBoard ny nx then
                target ← boardAt (board g) ny nx;
                match target with
                | Some t =>
                    if negb (String.eqb (colorOf t) color)
                    then Some (addMove nx ny color g) else Some g
                | None => Some (addMove nx ny color g)
                end
              else Some g) g) g.

Definition calculateLegalMoves (y x : Z) (g : Game) : option Game :=
  let g := withLegalMoves ∅ g in
  piece ← boardAt (board g) y x;
  match piece with
  | None => Some g
  | Some p =>
      let s := symbol p in
      if s =? pieces "white_pawn" then addPawnMoves y x "white" g
      else if s =? pieces "black_pawn" then addPawnMoves y x "black" g
      else if (s =? pieces "white_rook") || (s =? pieces "black_rook") then
        addSlidingMoves y x (color p) [-1; 1; 0; 0] [0; 0; -1; 1] g
      else if (s =? pieces "white_bishop") || (s =? pieces "black_bishop") then
        addSlidingMoves y x (color p) [-1; -1; 1; 1] [-1; 1; -1; 1] g
      else if (s =? pieces "white_queen") || (s =? pieces "black_queen") then
        addSlidingMoves y x (color p) [-1; 1; 0; 0; -1; -1; 1; 1]
          [0; 0; -1; 1; -1; 1; -1; 1] g
      else if (s =? pieces "white_knight") || (s =? pieces "black_knight") then
        addKnightMoves y x (color p) g
      else if (s =? pieces "white_king") || (s =? pieces "black_king") then
        addKingMoves y x (color p) g
      else Some g
  end.

(** ** handleMouseClick *)

Definition handleMouseClick (playerColor : string) (g : Game)
  : option (Game * string) :=
  let x := cursorX g in
  let y := cursorY g in
  if negb (String.eqb (currentPlayer g) playerColor) then
    Some (withMessage "Not your turn!" g, "")
  else if negb (selectedX g =? -1) then
    if mapGet (legalMoves g) (key x y) then
      let moveStr := encodeMove (selectedY g) (selectedX g) y x in
      g ← applyMove (selectedY g) (selectedX g) y x g;
      Some (withLegalMoves ∅ (withSelected (-1) (-1) g), moveStr)
    else
      Some (withMessage "Move cancelled."
              (withLegalMoves ∅ (withSelected (-1) (-1) g)), "")
  else
    piece ← boardAt (board g) y x;
    match piece with
    | Some p =>
        if String.eqb (color p) (currentPlayer g) then
          g ← calculateLegalMoves y x
                (withMessage "Piece selected. Click a destination square."
                   (withSelected x y g));
          Some (g, "")
        else Some (withMessage "Select one of your own pieces." g, "")
    | None => Some (withMessage "Select one of your own pieces." g, "")
    end.

(** ** play: the input loop and the network reader *)

(** The fields of a [termbox.Event] that [play] reads. *)
Inductive Key := KeyEsc | MouseLeft | KeyOther.

Inductive Event :=
| EventKey (k : Key) (ch : Z)
| EventMouse (k : Key) (mouseX mouseY : Z)
| EventError
| EventOther.

(** Go's integer division: truncated, and a panic on a zero divisor. *)
Definition intDiv (a b : Z) : option Z :=
  if b =? 0 then None else Some (Z.quot a b).

Definition clamp07 (v : Z) : Z :=
  let v := if v <? 0 then 0 else v in
  if v >? 7 then 7 else v.

(** Where a thread of [play] stands. *)
Inductive MainLoop := AtLoopHead | InPollEvent | MainReturned.
Inductive Reader := Reading | ReaderReturned.

Record Sys := mkSys {
  game : Game;
  mainLoop : MainLoop;
  reader : Reader;
  sent : list string   (* move strings written to the connection, oldest first *)
}.

(** What happens next: the main loop tests [!g.gameOver], [PollEvent] delivers
    an event, or [reader.ReadString] returns a line or an error. *)
Inductive Input :=
| LoopTest
| Local (ev : Event)
| NetLine (moveStr : string)
| NetError.

Section Play.

(** [strings.TrimSpace] of Go's library. *)
Variable TrimSpace : string → string.

(** The player colour given to [play]. *)
Variable player : string.

(** One iteration of the reader goroutine on a line read. *)
Definition readerStep (moveStr : string) (g : Game) : option Game :=
  let moveStr := TrimSpace moveStr in
  '(fromRow, fromCol, toRow, toCol, _) ← parseMove moveStr;
  applyMove fromRow fromCol toRow toCol g.

(** The reader goroutine when the read fails. *)
Definition readerError (g : Game) : Game :=
  withGameOver true (withMessage "Opponent disconnected." g).

(** The body of the [switch] on one event: the game, the line sent (if any)
    and whether [play] returns. *)
Definition handleEvent (ev : Event) (g : Game)
  : option (Game * list string * bool) :=
  match ev with
  | EventKey k ch =>
      match k with
      | KeyEsc => Some (withGameOver true g, [], true)
      | _ =>
          if (ch =? 99) || (ch =? 67) then
            Some (withMessage "Press 'c' to change theme."
                    (withThemeIndex
                       (Z.rem (currentThemeIndex g + 1)
                          (Z.of_nat (length themes))) g), [], false)
          else Some (g, [], false)
      end
  | EventMouse k mouseX mouseY =>
      cx ← intDiv mouseX (squareWidth g);
      cy ← intDiv mouseY (squareHeight g);
      let g := withCursor (clamp07 cx) (clamp07 cy) g in
      match k with
      | MouseLeft =>
          '(g, moveStr) ← handleMouseClick player g;
          Some (g, if String.eqb moveStr "" then [] else [moveStr], false)
      | _ => Some (g, [], false)
      end
  | EventError => None
  | EventOther => Some (g, [], false)
  end.

(** One step of the two threads, interleaved at the grain of whole events.
    [None]: the input cannot happen in this state, or the program panics.
    Nothing happens once [play] has returned, since [main] then exits. *)
Definition step (s : Sys) (i : Input) : option Sys :=
  match mainLoop s, i with
  | MainReturned, _ => None
  | AtLoopHead, LoopTest =>
      Some (mkSys (game s)
              (if gameOver (game s) then MainReturned else InPollEvent)
              (reader s) (sent s))
  | InPollEvent, Local ev =>
      '(g, out, ret) ← handleEvent ev (game s);
      Some (mkSys g (if ret : bool then MainReturned else AtLoopHead)
              (reader s) (sent s ++ out))
  | _, NetLine l =>
      match reader s with
      | Reading =>
          g ← readerStep l (game s);
          Some (mkSys g (mainLoop s) Reading (sent s))
      | ReaderReturned => None
      end
  | _, NetError =>
      match reader s with
      | Reading =>
          Some (mkSys (readerError (game s)) (mainLoop s) ReaderReturned
                  (sent s))
      | ReaderReturned => None
      end
  | _, _ => None
  end.

(** A run of [play] from a state, as the list of states reached. *)
Fixpoint run (s : Sys) (inputs : list Input) : option (list Sys) :=
  match inputs with
  | [] => Some []
  | i :: rest => s' ← step s i; (s' ::.) <$> run s' rest
  end.

(** [game.play(conn, player)] on a new game. *)
Definition initial : Sys := mkSys NewGame AtLoopHead Reading [].

End Play.

(** * Vocabulary of the statements *)

(** The king test of [applyMove] on the content of the destination. *)
Definition holdsKing (c : option Piece) : bool :=
  match c with
  | Some t => (symbol t =? pieces "white_king") || (symbol t =? pieces "black_king")
  | None => false
  end.

(** The player switch at the end of [applyMove]. *)
Definition otherPlayer (p : string) : string :=
  if String.eqb p "white" then "black" else "white".

Definition turnMessage (p : string) : string :=
  if String.eqb p "white" then "Black's turn." else "White's turn.".

Definition inCoord (v : Z) : bool := (0 <=? v) && (v <=? 7).

(** The notation as the specification words it, to be compared with
    [parseMove]: a string of length 4, file then rank twice, with
    col = file - 'a' and row = 8 - rank computed on integers (no byte
    wrap-around), accepted when the four coordinates are in 0..7. *)
Definition notationDecode (s : string) : option (Z * Z * Z * Z) :=
  match s with
  | String f1 (String r1 (String f2 (String r2 EmptyString))) =>
      let fromCol := byteVal f1 - 97 in
      let fromRow := 8 - (byteVal r1 - 48) in
      let toCol := byteVal f2 - 97 in
      let toRow := 8 - (byteVal r2 - 48) in
      if inCoord fromCol && inCoord fromRow && inCoord toCol && inCoord toRow
      then Some (fromRow, fromCol, toRow, toCol)
      else None
  | _ => None
  end.

(** A square of the board is empty, or holds a piece of another colour. *)
Definition emptyAt (b : Board) (y x : Z) : Prop := boardAt b y x = Some None.

Definition opposingAt (b : Board) (y x : Z) (c : string) : Prop :=
  ∃ t, boardAt b y x = Some (Some t) ∧ color t ≠ c.

(** [g'] is [g] with squares added to [legalMoves]: nothing else changed, and
    the keys that read [true] are those of [g] and the keys of the squares
    [(nx, ny)] of [S]. *)
Definition adds (g g' : Game) (S : Z → Z → Prop) : Prop :=
  g' = withLegalMoves (legalMoves g') g ∧
  ∀ k, mapGet (legalMoves g') k = true
       ↔ mapGet (legalMoves g) k = true ∨ ∃ nx ny, k = key nx ny ∧ S nx ny.

(** The squares one run of the inner loop of [addSlidingMoves] reaches. *)
Fixpoint rayReach (b : Board) (ds : list Z) (y x dy dx : Z) (c : string)
  (nx ny : Z) : Prop :=
  match ds with
  | [] => False
  | d :: ds' =>
      (nx = x + d * dx ∧ ny = y + d * dy ∧
       (emptyAt b ny nx ∨ opposingAt b ny nx c))
      ∨ (emptyAt b (y + d * dy) (x + d * dx) ∧ rayReach b ds' y x dy dx c nx ny)
  end.

(** A ray as the specification words it: the square at distance [d >= 1] from
    [(y, x)] in direction [(dy, dx)] is reached when every square strictly
    before it is empty and it is itself empty or holds an opposing piece. *)
Definition onRay (b : Board) (y x dy dx : Z) (c : string) (ny nx : Z) : Prop :=
  ∃ d, 1 <= d ∧ ny = y + d * dy ∧ nx = x + d * dx ∧
       (∀ d', 1 <= d' < d → emptyAt b (y + d' * dy) (x + d' * dx)) ∧
       (emptyAt b ny nx ∨ opposingAt b ny nx c).

(** The directions of the sliding pieces, as pairs [(dy, dx)]. *)
Definition rookRays : list (Z * Z) := [(-1, 0); (1, 0); (0, -1); (0, 1)].
Definition bishopRays : list (Z * Z) := [(-1, -1); (-1, 1); (1, -1); (1, 1)].
Definition queenRays : list (Z * Z) := rookRays ++ bishopRays.

Inductive Sliding := Rook | Bishop | Queen.

Definition slidingSymbol (k : Sliding) (s : Z) : Prop :=
  match k with
  | Rook => s = pieces "white_rook" ∨ s = pieces "black_rook"
  | Bishop => s = pieces "white_bishop" ∨ s = pieces "black_bishop"
  | Queen => s = pieces "white_queen" ∨ s = pieces "black_queen"
  end.

Definition raysOf (k : Sliding) : list (Z * Z) :=
  match k with
  | Rook => rookRays
  | Bishop => bishopRays
  | Queen => queenRays
  end.

(** The offsets of the knight and of the king, as pairs [(dy, dx)]. *)
Definition knightOffsets : list (Z * Z) :=
  [(-2, -1); (-2, 1); (-1, -2); (-1, 2); (1, -2); (1, 2); (2, -1); (2, 1)].

Definition kingOffsets : list (Z * Z) :=
  [(-1, -1); (-1, 0); (-1, 1); (0, -1); (0, 1); (1, -1); (1, 0); (1, 1)].

(** A fixed-offset step: in range and empty or capturable. *)
Definition onStep (b : Board) (y x : Z) (offsets : list (Z * Z)) (c : string)
  (ny nx : Z) : Prop :=
  ∃ dy dx, (dy, dx) ∈ offsets ∧ ny = y + dy ∧ nx = x + dx ∧
           (emptyAt b ny nx ∨ opposingAt b ny nx c).

(** The pawn: forward direction and starting rank of a colour. *)
Definition pawnDir (c : string) : Z := if String.eqb c "black" then 1 else -1.
Definition pawnStart (c : string) : Z := if String.eqb c "black" then 1 else 6.

Definition pawnReach (b : Board) (y x : Z) (c : string) (ny nx : Z) : Prop :=
  (nx = x ∧ ny = y + pawnDir c ∧ emptyAt b ny nx)
  ∨ (nx = x ∧ ny = y + 2 * pawnDir c ∧ y = pawnStart c ∧
     emptyAt b (y + pawnDir c) x ∧ emptyAt b ny nx)
  ∨ ((nx = x - 1 ∨ nx = x + 1) ∧ ny = y + pawnDir c ∧ opposingAt b ny nx c).

(** The pieces [NewGame] builds: a colour and the symbol of one of its kinds. *)
Definition pieceKinds : list string :=
  ["king"; "queen"; "rook"; "bishop"; "knight"; "pawn"].

Definition wfPiece (p : Piece) : Prop :=
  ∃ c k, c ∈ ["white"; "black"] ∧ k ∈ pieceKinds ∧
         p = mkPiece c (pieces (c +:+ "_" +:+ k)).

(** The squares [calculateLegalMoves] generates for a piece [p] standing on
    [(y, x)], kind by kind. *)
Definition movesOf (b : Board) (y x : Z) (p : Piece) (ny nx : Z) : Prop :=
  let s := symbol p in
  if s =? pieces "white_pawn" then pawnReach b y x "white" ny nx
  else if s =? pieces "black_pawn" then pawnReach b y x "black" ny nx
  else if (s =? pieces "white_rook") || (s =? pieces "black_rook") then
    ∃ dy dx, (dy, dx) ∈ rookRays ∧ onRay b y x dy dx (color p) ny nx
  else if (s =? pieces "white_bishop") || (s =? pieces "black_bishop") then
    ∃ dy dx, (dy, dx) ∈ bishopRays ∧ onRay b y x dy dx (color p) ny nx
  else if (s =? pieces "white_queen") || (s =? pieces "black_queen") then
    ∃ dy dx, (dy, dx) ∈ queenRays ∧ onRay b y x dy dx (color p) ny nx
  else if (s =? pieces "white_knight") || (s =? pieces "black_knight") then
    onStep b y x knightOffsets (color p) ny nx
  else if (s =? pieces "white_king") || (s =? pieces "black_king") then
    onStep b y x kingOffsets (color p) ny nx
  else False.

(** The legal-destination set of [g] is exactly the set [S] of squares
    [(ny, nx)]: every key that reads [true] is the key of an in-range square,
    and the key of a square reads [true] exactly when the square is in [S]. *)
Definition legalSet (g : Game) (S : Z → Z → Prop) : Prop :=
  (∀ k, mapGet (legalMoves g) k = true
        → ∃ nx ny, k = key nx ny ∧ inRange ny nx) ∧
  (∀ ny nx, mapGet (legalMoves g) (key nx ny) = true ↔ S ny nx).

(** All the squares of the board, as pairs [(y, x)]. *)
Definition squares : list (Z * Z) := list_prod (seqZ 0 8) (seqZ 0 8).

(** 1 for a square that holds a piece, 0 for an empty one. *)
Definition occupied (b : Board) (sq : Z * Z) : nat :=
  match boardAt b sq.1 sq.2 with
  | Some (Some _) => 1%nat
  | _ => 0%nat
  end.

(** The number of pieces on the board. *)
Definition pieceCount (b : Board) : nat := sum_list_with (occupied b) squares.

(** A line of the wire protocol that [parseMove] accepts. *)
Definition wellFormedLine (m : string) : Prop :=
  ∃ fromRow fromCol toRow toCol,
    parseMove m = Some (fromRow, fromCol, toRow, toCol, true).

(** What every game reached by [play] satisfies. *)
Definition gameInv (g : Game) : Prop :=
  wfBoard (board g) ∧
  (∀ y x p, boardAt (board g) y x = Some (Some p) → wfPiece p) ∧
  (pieceCount (board g) ≤ 32)%nat ∧
  (currentPlayer g = "white" ∨ currentPlayer g = "black") ∧
  inRange (cursorY g) (cursorX g) ∧
  (selectedX g = -1 ∨ inRange (selectedY g) (selectedX g)) ∧
  (selectedX g = -1 → legalMoves g = ∅) ∧
  (∀ k, mapGet (legalMoves g) k = true
        → ∃ nx ny, k = key nx ny ∧ inRange ny nx) ∧
  0 <= currentThemeIndex g < Z.of_nat (length themes) ∧
  squareWidth g = 8 ∧ squareHeight g = 4.

Definition sysInv (s : Sys) : Prop :=
  gameInv (game s) ∧ Forall wellFormedLine (sent s).

(** The inputs that can happen in a state of [play]. *)
Definition enabled (s : Sys) (i : Input) : bool :=
  match mainLoop s, i with
  | MainReturned, _ => false
  | AtLoopHead, LoopTest => true
  | InPollEvent, Local _ => true
  | _, NetLine _ | _, NetError =>
      match reader s with Reading => true | ReaderReturned => false end
  | _, _ => false
  end.

(** The screen cells [drawBoard] paints for the board square in column [x]
    and row [y]: the coordinates its two inner loops pass to [SetCell]. *)
Definition squareCells (g : Game) (x y : Z) : list (Z * Z) :=
  i ← seqZ 0 (squareHeight g);
  j ← seqZ 0 (squareWidth g);
  [(x * squareWidth g + j, y * squareHeight g + i)].

(** The screen cell where [drawBoard] puts the symbol of the piece standing
    on the square in column [x] and row [y] ([pieceX], [pieceY]). *)
Definition pieceCell (g : Game) (x y : Z) : Z * Z :=
  (x * squareWidth g + Z.quot (squareWidth g) 2 - 1,
   y * squareHeight g + Z.quot (squareHeight g) 2 - 1).

(** Finding the colour and kind of a piece of the table. *)
Ltac try_piece c k :=
  exists c, k; (split; [|split; [|reflexivity]]);
  solve [repeat first [apply list_elem_of_here | apply list_elem_of_further]].

Ltac pick_piece :=
  first
    [ try_piece "white" "king" | try_piece "white" "queen"
    | try_piece "white" "rook" | try_piece "white" "bishop"
    | try_piece "white" "knight" | try_piece "white" "pawn"
    | try_piece "black" "king" | try_piece "black" "queen"
    | try_piece "black" "rook" | try_piece "black" "bishop"
    | try_piece "black" "knight" | try_piece "black" "pawn" ].

(** The symbols of the table, evaluated. *)
Ltac eval_pieces :=
  repeat match goal with
         | |- context [pieces ?s] =>
             let v := eval vm_compute in (pieces s) in
             change (pieces s) with v
         end.

(** * Properties *)

(** ** Array access on a well-shaped board *)

Lemma index_Some {A} (l : list A) (i : Z) (a : A) :
  index l i = Some a ↔ 0 <= i ∧ l !! Z.to_nat i = Some a.
Proof.
  unfold index. case_bool_decide; [tauto|].
  split; [discriminate | intros [? _]; lia].
Qed.

Lemma index_is_Some {A} (l : list A) (i : Z) :
  0 <= i < Z.of_nat (length l) → is_Some (index l i).
Proof.
  intros Hi. unfold index. rewrite bool_decide_eq_true_2 by lia.
  apply lookup_lt_is_Some. lia.
Qed.

Lemma wfBoard_row (b : Board) (y : Z) (row : list (option Piece)) :
  wfBoard b → index b y = Some row → 0 <= y < 8 ∧ length row = 8%nat.
Proof.
  intros [Hlen Hrows] [Hy Hrow]%index_Some. split.
  - apply lookup_lt_Some in Hrow. lia.
  - rewrite Forall_lookup in Hrows. by eapply Hrows.
Qed.

Lemma boardAt_is_Some (b : Board) (y x : Z) :
  wfBoard b → inRange y x → is_Some (boardAt b y x).
Proof.
  intros Hwf [Hy Hx]. unfold boardAt.
  destruct (index_is_Some b y) as [row Hrow]; [destruct Hwf; lia|].
  rewrite Hrow. simpl. apply index_is_Some.
  destruct (wfBoard_row _ _ _ Hwf Hrow). lia.
Qed.

Lemma boardAt_inRange (b : Board) (y x : Z) (c : option Piece) :
  wfBoard b → boardAt b y x = Some c → inRange y x.
Proof.
  intros Hwf. unfold boardAt.
  destruct (index b y) as [row|] eqn:Hrow; [simpl|discriminate].
  destruct (wfBoard_row _ _ _ Hwf Hrow) as [Hy Hlen].
  intros [Hx Hc]%index_Some. apply lookup_lt_Some in Hc.
  split; lia.
Qed.

Lemma index_insert {A} (l : list A) (i j : Z) (a : A) :
  0 <= i < Z.of_nat (length l) →
  index (<[Z.to_nat i := a]> l) j = if decide (j = i) then Some a else index l j.
Proof.
  intros Hi. unfold index. case_bool_decide as Hj.
  - destruct (decide (j = i)) as [->|Hne].
    + apply list_lookup_insert_eq. lia.
    + apply list_lookup_insert_ne. lia.
  - rewrite decide_False by lia. done.
Qed.

Lemma boardSet_spec (b : Board) (y x : Z) (v : option Piece) :
  wfBoard b → inRange y x →
  ∃ b', boardSet b y x v = Some b' ∧ wfBoard b' ∧
        ∀ y' x', boardAt b' y' x'
                 = if decide (y' = y ∧ x' = x) then Some v else boardAt b y' x'.
Proof.
  intros Hwf [Hy Hx]. unfold boardSet.
  destruct (index_is_Some b y) as [row Hrow]; [destruct Hwf; lia|].
  destruct (wfBoard_row _ _ _ Hwf Hrow) as [_ Hlen].
  destruct (index_is_Some row x) as [c Hc]; [lia|].
  rewrite Hrow. simpl. rewrite Hc. simpl.
  eexists. split; [done|]. split.
  - destruct Hwf as [Hl Hrows]. split; [by rewrite length_insert|].
    apply Forall_insert; [done|]. by rewrite length_insert.
  - intros y' x'. unfold boardAt.
    rewrite index_insert by (destruct Hwf; lia).
    destruct (decide (y' = y)) as [->|Hne]; simpl.
    + rewrite Hrow. simpl. rewrite index_insert by lia.
      destruct (decide (x' = x)) as [->|Hnx].
      * by rewrite decide_True.
      * by rewrite decide_False by tauto.
    + by rewrite decide_False by tauto.
Qed.

(** [NewGame] has the shape of the array. *)
Lemma NewGame_wf : wfBoard (board NewGame).
Proof. split; [done|]. repeat constructor. Qed.

(** ** applyMove *)

(** What [applyMove] does on in-range squares: it never panics, the
    destination gets the content of the source, the source is cleared
    afterwards, the game ends exactly on a king at the destination, the player
    is switched and the message is the turn notice. *)
Lemma applyMove_spec (fromY fromX toY toX : Z) (g : Game) :
  wfBoard (board g) → inRange fromY fromX → inRange toY toX →
  ∃ piece target g',
    boardAt (board g) fromY fromX = Some piece ∧
    boardAt (board g) toY toX = Some target ∧
    applyMove fromY fromX toY toX g = Some g' ∧
    wfBoard (board g') ∧
    (∀ y x, boardAt (board g') y x
            = if decide (y = fromY ∧ x = fromX) then Some None
              else if decide (y = toY ∧ x = toX) then Some piece
              else boardAt (board g) y x) ∧
    gameOver g' = gameOver g || holdsKing target ∧
    currentPlayer g' = otherPlayer (currentPlayer g) ∧
    message g' = turnMessage (currentPlayer g) ∧
    cursorX g' = cursorX g ∧ cursorY g' = cursorY g ∧
    selectedX g' = selectedX g ∧ selectedY g' = selectedY g ∧
    legalMoves g' = legalMoves g.
Proof.
  intros Hwf Hfrom Hto.
  destruct (boardAt_is_Some _ _ _ Hwf Hfrom) as [piece Hp].
  destruct (boardAt_is_Some _ _ _ Hwf Hto) as [target Ht].
  destruct (boardSet_spec (board g) toY toX piece Hwf Hto)
    as (b1 & Hb1 & Hwf1 & Hat1).
  destruct (boardSet_spec b1 fromY fromX None Hwf1 Hfrom)
    as (b2 & Hb2 & Hwf2 & Hat2).
  exists piece, target. unfold applyMove. rewrite Hp, Ht. simpl.
  unfold holdsKing, otherPlayer, turnMessage.
  destruct target as [t|]; simpl;
    [destruct ((symbol t =? pieces "white_king")
               || (symbol t =? pieces "black_king")); simpl|];
    rewrite Hb1; simpl; rewrite Hb2; simpl;
    destruct (String.eqb (currentPlayer g) "white"); simpl;
    rewrite ?orb_true_r, ?orb_false_r;
    (eexists; split; [done|]; split; [done|]; split; [reflexivity|]);
    simpl; (split; [exact Hwf2|]);
    (split; [intros y x; rewrite Hat2, Hat1; done|]);
    repeat split; done.
Qed.

(** C1. [applyMove] sets [gameOver] when the destination holds a king, and does
    write "Game Over! <mover> wins." into the message, but the player switch
    that follows in the same call overwrites the message: after the white
    queen of the initial position is moved onto the black king (the move
    "d1e8", which the reader applies as it comes), the game is over and the
    message is "Black's turn.", not the winner. *)
Theorem C1_winner_message_overwritten :
  boardAt (board NewGame) 0 4
    = Some (Some (mkPiece "black" (pieces "black_king"))) ∧
  currentPlayer NewGame = "white" ∧
  ∃ g', applyMove 7 3 0 4 NewGame = Some g' ∧
        gameOver g' = true ∧
        message g' = "Black's turn." ∧
        message g' ≠ "Game Over! white wins.".
Proof.
  split; [reflexivity|]. split; [reflexivity|].
  eexists. split; [vm_compute; reflexivity|].
  simpl. repeat split. discriminate.
Qed.

(** The part of C1 that holds on every in-range move: the game ends exactly
    when the destination holds a king, and the message is always the turn
    notice, never the winner. *)
Lemma applyMove_gameOver_message (fromY fromX toY toX : Z) (g : Game) :
  wfBoard (board g) → inRange fromY fromX → inRange toY toX →
  ∃ target g',
    boardAt (board g) toY toX = Some target ∧
    applyMove fromY fromX toY toX g = Some g' ∧
    gameOver g' = gameOver g || holdsKing target ∧
    message g' = turnMessage (currentPlayer g) ∧
    message g' ≠ "Game Over! " +:+ currentPlayer g +:+ " wins.".
Proof.
  intros Hwf Hfrom Hto.
  destruct (applyMove_spec fromY fromX toY toX g Hwf Hfrom Hto)
    as (piece & target & g' & _ & Ht & Hg' & _ & _ & Hover & _ & Hmsg & _).
  exists target, g'. repeat split; try done.
  rewrite Hmsg. unfold turnMessage.
  destruct (String.eqb (currentPlayer g) "white"); discriminate.
Qed.

(** C9. A move from an occupied in-range square to itself is not a no-op:
    the destination is written first and the source cleared afterwards, so the
    square ends up empty (the piece is gone from the board), and the player is
    switched all the same. *)
Theorem C9_applyMove_same_square_removes_piece (r c : Z) (p : Piece) (g : Game) :
  wfBoard (board g) → inRange r c →
  boardAt (board g) r c = Some (Some p) →
  ∃ g', applyMove r c r c g = Some g' ∧
        boardAt (board g') r c = Some None ∧
        (∀ y x, (y, x) ≠ (r, c) →
                boardAt (board g') y x = boardAt (board g) y x) ∧
        currentPlayer g' = otherPlayer (currentPlayer g) ∧
        currentPlayer g' ≠ currentPlayer g ∧
        board g' ≠ board g.
Proof.
  intros Hwf Hr Hp.
  destruct (applyMove_spec r c r c g Hwf Hr Hr)
    as (piece & target & g' & _ & _ & Hg' & _ & Hat & _ & Hcur & _).
  exists g'. split; [done|].
  assert (boardAt (board g') r c = Some None) as Hempty
    by (rewrite Hat; by rewrite decide_True).
  split; [done|]. split.
  - intros y x Hne. rewrite Hat.
    rewrite !decide_False by (intros [-> ->]; by apply Hne). done.
  - split; [done|]. split.
    + rewrite Hcur. unfold otherPlayer.
      destruct (String.eqb_spec (currentPlayer g) "white") as [->|]; [done|].
      congruence.
    + intros Heq. rewrite Heq in Hempty. congruence.
Qed.

Lemma C9_applyMove_same_square_removes_piece_witness :
  ∃ g', applyMove 0 0 0 0 NewGame = Some g' ∧
        boardAt (board g') 0 0 = Some None ∧
        (∀ y x, (y, x) ≠ (0, 0) →
                boardAt (board g') y x = boardAt (board NewGame) y x) ∧
        currentPlayer g' = otherPlayer (currentPlayer NewGame) ∧
        currentPlayer g' ≠ currentPlayer NewGame ∧
        board g' ≠ board NewGame.
Proof.
  apply (C9_applyMove_same_square_removes_piece 0 0
           (mkPiece "black" (pieces "black_rook")) NewGame).
  - exact NewGame_wf.
  - unfold inRange. lia.
  - reflexivity.
Defined.

(** ** handleMouseClick *)

(** C8. A click while it is the other player's turn is rejected: no move
    string is returned, the message becomes the advisory "Not your turn!",
    and nothing else of the game changes. *)
Theorem C8_click_out_of_turn_rejected (playerColor : string) (g : Game) :
  currentPlayer g ≠ playerColor →
  ∃ g', handleMouseClick playerColor g = Some (g', "") ∧
        g' = withMessage "Not your turn!" g ∧
        board g' = board g ∧
        currentPlayer g' = currentPlayer g ∧
        gameOver g' = gameOver g ∧
        selectedX g' = selectedX g ∧ selectedY g' = selectedY g ∧
        legalMoves g' = legalMoves g ∧
        cursorX g' = cursorX g ∧ cursorY g' = cursorY g.
Proof.
  intros Hturn. unfold handleMouseClick.
  apply String.eqb_neq in Hturn. rewrite Hturn. simpl.
  eexists. split; [reflexivity|]. repeat split.
Qed.

Lemma C8_click_out_of_turn_rejected_witness :
  ∃ g', handleMouseClick "black" NewGame = Some (g', "") ∧
        g' = withMessage "Not your turn!" NewGame ∧
        board g' = board NewGame ∧
        currentPlayer g' = currentPlayer NewGame ∧
        gameOver g' = gameOver NewGame ∧
        selectedX g' = selectedX NewGame ∧ selectedY g' = selectedY NewGame ∧
        legalMoves g' = legalMoves NewGame ∧
        cursorX g' = cursorX NewGame ∧ cursorY g' = cursorY NewGame.
Proof.
  apply (C8_click_out_of_turn_rejected "black" NewGame).
  simpl. discriminate.
Defined.

(** ** play *)

(** The reader goroutine never looks at [gameOver]: while it is reading, a
    line is applied whatever the flag says. *)
Lemma step_NetLine_ignores_gameOver (TrimSpace : string → string)
    (player l : string) (s : Sys) :
  mainLoop s ≠ MainReturned → reader s = Reading →
  step TrimSpace player s (NetLine l)
  = g ← readerStep TrimSpace l (game s);
    Some (mkSys g (mainLoop s) Reading (sent s)).
Proof.
  intros Hmain Hreader. unfold step. rewrite Hreader.
  by destruct (mainLoop s).
Qed.

(** The guard that exists: the main loop returns when it finds [gameOver] at
    its loop test, and nothing runs after [play] has returned. *)
Lemma step_LoopTest_gameOver (TrimSpace : string → string) (player : string)
    (s : Sys) :
  mainLoop s = AtLoopHead → gameOver (game s) = true →
  step TrimSpace player s LoopTest
  = Some (mkSys (game s) MainReturned (reader s) (sent s)).
Proof. intros Hmain Hover. unfold step. by rewrite Hmain, Hover. Qed.

Lemma step_MainReturned (TrimSpace : string → string) (player : string)
    (s : Sys) (i : Input) :
  mainLoop s = MainReturned → step TrimSpace player s i = None.
Proof. intros Hmain. unfold step. by rewrite Hmain. Qed.

(** C2. The game-over state does not stop moves.  White selects the pawn e2;
    the peer's connection then fails, which sets [gameOver]; the main loop,
    already waiting in [PollEvent] (it tests the flag only before waiting),
    still handles the next click, and [applyMove] moves the pawn to e4,
    switches the player and the move is sent. *)
Theorem C2_move_applied_after_gameOver (TrimSpace : string → string) :
  ∃ trace s1 s2,
    run TrimSpace "white" initial
      [LoopTest; Local (EventMouse MouseLeft 32 24); LoopTest; NetError]
      = Some trace ∧
    last trace = Some s1 ∧
    gameOver (game s1) = true ∧
    boardAt (board (game s1)) 6 4
      = Some (Some (mkPiece "white" (pieces "white_pawn"))) ∧
    boardAt (board (game s1)) 4 4 = Some None ∧
    currentPlayer (game s1) = "white" ∧
    step TrimSpace "white" s1 (Local (EventMouse MouseLeft 32 16)) = Some s2 ∧
    boardAt (board (game s2)) 6 4 = Some None ∧
    boardAt (board (game s2)) 4 4
      = Some (Some (mkPiece "white" (pieces "white_pawn"))) ∧
    currentPlayer (game s2) = "black" ∧
    sent s2 = ["e2e4"].
Proof.
  eexists _, _, _.
  split; [vm_compute; reflexivity|].
  split; [reflexivity|].
  split; [reflexivity|].
  split; [reflexivity|].
  split; [reflexivity|].
  split; [reflexivity|].
  split; [vm_compute; reflexivity|].
  repeat split.
Qed.

(** ** The wire notation *)

(** C7. The double step of white's king pawn is written "e2e4", and "e2e4"
    is read back as (6,4,4,4). *)
Theorem C7_e2e4_round_trip :
  encodeMove 6 4 4 4 = "e2e4" ∧ parseMove "e2e4" = Some (6, 4, 4, 4, true).
Proof. split; reflexivity. Qed.

Lemma byteVal_range (c : ascii) : 0 <= byteVal c < 256.
Proof.
  unfold byteVal. pose proof (N_ascii_bounded c). lia.
Qed.

Lemma byteVal_byte (z : Z) : 0 <= z < 256 → byteVal (byte z) = z.
Proof.
  intros Hz. unfold byteVal, byte. rewrite Z.mod_small by done.
  rewrite N_ascii_embedding by lia. lia.
Qed.

(** The file letter written for an in-range column. *)
Lemma fmtC_file (c : Z) :
  0 <= c < 8 → fmtC (toRune (97 + toRune c)) = String (byte (97 + c)) "".
Proof.
  intros Hc.
  assert (c = 0 ∨ c = 1 ∨ c = 2 ∨ c = 3 ∨ c = 4 ∨ c = 5 ∨ c = 6 ∨ c = 7)
    as Hcases by lia.
  destruct_or!; subst c; reflexivity.
Qed.

(** The rank digit written for an in-range row. *)
Lemma pretty_rank (r : Z) :
  0 <= r < 8 → pretty (8 - r) = String (byte (56 - r)) "".
Proof.
  intros Hr.
  assert (r = 0 ∨ r = 1 ∨ r = 2 ∨ r = 3 ∨ r = 4 ∨ r = 5 ∨ r = 6 ∨ r = 7)
    as Hcases by lia.
  destruct_or!; subst r; reflexivity.
Qed.

(** [parseMove] on a four-byte string, with the index reads resolved. *)
Lemma parseMove_four (c0 c1 c2 c3 : ascii) :
  parseMove (String c0 (String c1 (String c2 (String c3 ""))))
  = let fromCol := byteSub (byteVal c0) 97 in
    let fromRow := 8 - byteSub (byteVal c1) 48 in
    let toCol := byteSub (byteVal c2) 97 in
    let toRow := 8 - byteSub (byteVal c3) 48 in
    if (fromCol <? 0) || (fromCol >? 7) || (fromRow <? 0) || (fromRow >? 7)
       || (toCol <? 0) || (toCol >? 7) || (toRow <? 0) || (toRow >? 7)
    then Some (0, 0, 0, 0, false)
    else Some (fromRow, fromCol, toRow, toCol, true).
Proof. reflexivity. Qed.

(** C10. Every in-range move written by [handleMouseClick] is read back by
    [parseMove] as the same four coordinates, with [ok = true]. *)
Theorem C10_notation_round_trip (fromRow fromCol toRow toCol : Z) :
  0 <= fromRow < 8 → 0 <= fromCol < 8 → 0 <= toRow < 8 → 0 <= toCol < 8 →
  parseMove (encodeMove fromRow fromCol toRow toCol)
  = Some (fromRow, fromCol, toRow, toCol, true).
Proof.
  intros Hfr Hfc Htr Htc. unfold encodeMove.
  rewrite !fmtC_file, !pretty_rank by done. cbv [String.append].
  rewrite parseMove_four. cbv zeta.
  rewrite !byteVal_byte by lia. unfold byteSub.
  replace (97 + fromCol - 97) with fromCol by lia.
  replace (97 + toCol - 97) with toCol by lia.
  replace (56 - fromRow - 48) with (8 - fromRow) by lia.
  replace (56 - toRow - 48) with (8 - toRow) by lia.
  rewrite !Z.mod_small by lia.
  replace (8 - (8 - fromRow)) with fromRow by lia.
  replace (8 - (8 - toRow)) with toRow by lia.
  assert ((fromCol <? 0) = false ∧ (fromCol >? 7) = false ∧
          (fromRow <? 0) = false ∧ (fromRow >? 7) = false ∧
          (toCol <? 0) = false ∧ (toCol >? 7) = false ∧
          (toRow <? 0) = false ∧ (toRow >? 7) = false)
    as (-> & -> & -> & -> & -> & -> & -> & ->).
  { rewrite !Z.gtb_ltb, !Z.ltb_ge. lia. }
  reflexivity.
Qed.

Lemma C10_notation_round_trip_witness :
  parseMove (encodeMove 1 6 2 5) = Some (1, 6, 2, 5, true).
Proof. apply (C10_notation_round_trip 1 6 2 5); lia. Defined.

(** ** parseMove against the notation *)

Lemma file_check (v : Z) :
  0 <= v < 256 →
  (byteSub v 97 <? 0) || (byteSub v 97 >? 7) = negb (inCoord (v - 97)) ∧
  (inCoord (v - 97) = true → byteSub v 97 = v - 97).
Proof.
  intros Hv. unfold byteSub, inCoord.
  assert (v < 97 ∨ 97 <= v) as [Hlt|Hge] by lia.
  - replace ((v - 97) mod 256) with (v + 159)
      by (apply Z.mod_unique with (q := -1); lia).
    split; [|intros; lia].
    rewrite Z.gtb_ltb.
    destruct (Z.ltb_spec (v + 159) 0), (Z.ltb_spec 7 (v + 159)),
      (Z.leb_spec 0 (v - 97)), (Z.leb_spec (v - 97) 7); simpl; lia.
  - rewrite Z.mod_small by lia. split; [|done].
    rewrite Z.gtb_ltb.
    destruct (Z.ltb_spec (v - 97) 0), (Z.ltb_spec 7 (v - 97)),
      (Z.leb_spec 0 (v - 97)), (Z.leb_spec (v - 97) 7); simpl; lia.
Qed.

Lemma rank_check (v : Z) :
  0 <= v < 256 →
  (8 - byteSub v 48 <? 0) || (8 - byteSub v 48 >? 7)
    = negb (inCoord (8 - (v - 48))) ∧
  (inCoord (8 - (v - 48)) = true → byteSub v 48 = v - 48).
Proof.
  intros Hv. unfold byteSub, inCoord.
  assert (v < 48 ∨ 48 <= v) as [Hlt|Hge] by lia.
  - replace ((v - 48) mod 256) with (v + 208)
      by (apply Z.mod_unique with (q := -1); lia).
    split; [|intros; lia].
    rewrite Z.gtb_ltb.
    destruct (Z.ltb_spec (8 - (v + 208)) 0), (Z.ltb_spec 7 (8 - (v + 208))),
      (Z.leb_spec 0 (8 - (v - 48))), (Z.leb_spec (8 - (v - 48)) 7);
      simpl; lia.
  - rewrite Z.mod_small by lia. split; [|done].
    rewrite Z.gtb_ltb.
    destruct (Z.ltb_spec (8 - (v - 48)) 0), (Z.ltb_spec 7 (8 - (v - 48))),
      (Z.leb_spec 0 (8 - (v - 48))), (Z.leb_spec (8 - (v - 48)) 7);
      simpl; lia.
Qed.

(** [parseMove] never panics and computes the notation of the specification;
    everything else is the zero move with [ok = false]. *)
Lemma parseMove_notationDecode (s : string) :
  parseMove s
  = match notationDecode s with
    | Some (fromRow, fromCol, toRow, toCol) =>
        Some (fromRow, fromCol, toRow, toCol, true)
    | None => Some (0, 0, 0, 0, false)
    end.
Proof.
  destruct s as [|c0 [|c1 [|c2 [|c3 [|c4 s]]]]]; try reflexivity.
  rewrite parseMove_four. unfold notationDecode. cbv zeta.
  destruct (file_check (byteVal c0) (byteVal_range c0)) as [Ha Ha'].
  destruct (rank_check (byteVal c1) (byteVal_range c1)) as [Hb Hb'].
  destruct (file_check (byteVal c2) (byteVal_range c2)) as [Hc Hc'].
  destruct (rank_check (byteVal c3) (byteVal_range c3)) as [Hd Hd'].
  rewrite Ha.
  destruct (inCoord (byteVal c0 - 97)); [|reflexivity]. simpl.
  rewrite Hb.
  destruct (inCoord (8 - (byteVal c1 - 48))); [|reflexivity]. simpl.
  rewrite Hc.
  destruct (inCoord (byteVal c2 - 97)); [|reflexivity]. simpl.
  rewrite Hd.
  destruct (inCoord (8 - (byteVal c3 - 48))); [|reflexivity]. simpl.
  rewrite Ha', Hb', Hc', Hd' by done. reflexivity.
Qed.

Lemma notationDecode_Some (s : string) (fromRow fromCol toRow toCol : Z) :
  notationDecode s = Some (fromRow, fromCol, toRow, toCol) →
  String.length s = 4%nat ∧
  0 <= fromRow <= 7 ∧ 0 <= fromCol <= 7 ∧ 0 <= toRow <= 7 ∧ 0 <= toCol <= 7.
Proof.
  destruct s as [|c0 [|c1 [|c2 [|c3 [|c4 s]]]]]; try discriminate.
  unfold notationDecode. cbv zeta.
  destruct (inCoord (byteVal c0 - 97)) eqn:Ha; [|discriminate].
  destruct (inCoord (8 - (byteVal c1 - 48))) eqn:Hb; [|discriminate].
  destruct (inCoord (byteVal c2 - 97)) eqn:Hc; [|discriminate].
  destruct (inCoord (8 - (byteVal c3 - 48))) eqn:Hd; [|discriminate].
  simpl. intros [= <- <- <- <-].
  unfold inCoord in *. split; [done|]. lia.
Qed.

Lemma notationDecode_length (s : string) :
  String.length s ≠ 4%nat → notationDecode s = None.
Proof.
  destruct s as [|c0 [|c1 [|c2 [|c3 [|c4 s]]]]]; try done.
Qed.

(** C3. [parseMove] answers [ok = true], with the four coordinates in 0..7,
    exactly on the strings of length 4 whose file letters are 'a'..'h' and
    rank digits '1'..'8' (row = 8 - rank, col = file - 'a'); on every other
    string it answers (0,0,0,0) with [ok = false]; and the reader drops the
    flag, so a malformed line is applied as the move (0,0,0,0). *)
Theorem C3_parseMove_malformed_is_zero_move
    (TrimSpace : string → string) (s : string) (g : Game) :
  (parseMove s
   = match notationDecode s with
     | Some (fromRow, fromCol, toRow, toCol) =>
         Some (fromRow, fromCol, toRow, toCol, true)
     | None => Some (0, 0, 0, 0, false)
     end) ∧
  (∀ fromRow fromCol toRow toCol,
     parseMove s = Some (fromRow, fromCol, toRow, toCol, true)
     ↔ notationDecode s = Some (fromRow, fromCol, toRow, toCol)) ∧
  (∀ fromRow fromCol toRow toCol,
     notationDecode s = Some (fromRow, fromCol, toRow, toCol) →
     String.length s = 4%nat ∧
     0 <= fromRow <= 7 ∧ 0 <= fromCol <= 7 ∧
     0 <= toRow <= 7 ∧ 0 <= toCol <= 7) ∧
  (String.length s ≠ 4%nat → parseMove s = Some (0, 0, 0, 0, false)) ∧
  (readerStep TrimSpace s g
   = match notationDecode (TrimSpace s) with
     | Some (fromRow, fromCol, toRow, toCol) =>
         applyMove fromRow fromCol toRow toCol g
     | None => applyMove 0 0 0 0 g
     end).
Proof.
  split; [apply parseMove_notationDecode|].
  split.
  { intros fr fc tr tc. rewrite parseMove_notationDecode.
    destruct (notationDecode s) as [[[[a b] c] d]|]; split; congruence. }
  split; [apply notationDecode_Some|].
  split.
  { intros Hlen. rewrite parseMove_notationDecode.
    by rewrite notationDecode_length. }
  unfold readerStep. rewrite parseMove_notationDecode.
  by destruct (notationDecode (TrimSpace s)) as [[[[a b] c] d]|].
Qed.

Lemma C3_parseMove_malformed_is_zero_move_witness :
  parseMove "e9e4" = Some (0, 0, 0, 0, false) ∧
  parseMove "e2e4" = Some (6, 4, 4, 4, true) ∧
  parseMove "e2e4x" = Some (0, 0, 0, 0, false) ∧
  readerStep (λ l, l) "e9e4" NewGame = applyMove 0 0 0 0 NewGame.
Proof.
  split; [exact (proj1 (C3_parseMove_malformed_is_zero_move (λ l, l) "e9e4" NewGame))|].
  split; [exact (proj1 (C3_parseMove_malformed_is_zero_move (λ l, l) "e2e4" NewGame))|].
  split.
  - apply (C3_parseMove_malformed_is_zero_move (λ l, l) "e2e4x" NewGame).
    simpl. lia.
  - apply (C3_parseMove_malformed_is_zero_move (λ l, l) "e9e4" NewGame).
Defined.

(** ** The keys of [legalMoves] *)

Lemma pretty_digit (v : Z) :
  0 <= v < 8 → pretty v = String (byte (48 + v)) "".
Proof.
  intros Hv.
  assert (v = 0 ∨ v = 1 ∨ v = 2 ∨ v = 3 ∨ v = 4 ∨ v = 5 ∨ v = 6 ∨ v = 7)
    as Hcases by lia.
  destruct_or!; subst v; reflexivity.
Qed.

Lemma digit_not_comma (v : Z) : 0 <= v < 8 → byte (48 + v) ≠ ","%char.
Proof.
  intros Hv Heq. apply (f_equal byteVal) in Heq.
  rewrite byteVal_byte in Heq by lia.
  change (byteVal ",") with 44 in Heq. lia.
Qed.

(** The key of an in-range square is the key of no other pair of integers. *)
Lemma key_inj (x y x' y' : Z) :
  0 <= x' < 8 → 0 <= y' < 8 → key x y = key x' y' → x = x' ∧ y = y'.
Proof.
  intros Hx' Hy'. unfold key.
  pose proof (digit_not_comma x' Hx') as Hcx.
  pose proof (digit_not_comma y' Hy') as Hcy.
  rewrite (pretty_digit x' Hx'), (pretty_digit y' Hy').
  destruct (pretty x) as [|c1 [|c2 [|c3 s]]] eqn:Hpx; cbv [String.append];
    fold String.append; intros Heq; simplify_eq.
  - split; apply (inj pretty).
    + by rewrite (pretty_digit x').
    + by rewrite (pretty_digit y').
  - destruct s; discriminate.
Qed.

(** ** Adding squares to [legalMoves] *)

Lemma adds_board (g g' : Game) (S : Z → Z → Prop) :
  adds g g' S → board g' = board g.
Proof. intros [-> _]. reflexivity. Qed.

Lemma adds_refl (g : Game) : adds g g (λ _ _, False).
Proof.
  split; [by destruct g|]. intros k. split; [by left|].
  intros [?|(? & ? & _ & [])]; done.
Qed.

Lemma adds_addMove (g : Game) (x y : Z) (c : string) :
  adds g (addMove x y c g) (λ nx ny, nx = x ∧ ny = y).
Proof.
  split; [reflexivity|]. intros k. unfold addMove, mapGet. simpl.
  destruct (decide (k = key x y)) as [->|Hne].
  - rewrite lookup_insert_eq. simpl. split; [|done].
    intros _. right. by exists x, y.
  - rewrite lookup_insert_ne by done. split; [by left|].
    intros [?|(nx & ny & -> & -> & ->)]; done.
Qed.

Lemma adds_trans (g g1 g2 : Game) (S1 S2 : Z → Z → Prop) :
  adds g g1 S1 → adds g1 g2 S2 → adds g g2 (λ nx ny, S1 nx ny ∨ S2 nx ny).
Proof.
  intros [E1 Hk1] [E2 Hk2]. split.
  - rewrite E2 at 1. rewrite E1. reflexivity.
  - intros k. rewrite Hk2, Hk1. split.
    + intros [[?|(nx & ny & ? & ?)]|(nx & ny & ? & ?)];
        [by left|right; exists nx, ny; tauto..].
    + intros [?|(nx & ny & ? & [?|?])];
        [by left; left|left; right; by exists nx, ny|right; by exists nx, ny].
Qed.

Lemma adds_iff (g g' : Game) (S S' : Z → Z → Prop) :
  (∀ nx ny, S nx ny ↔ S' nx ny) → adds g g' S → adds g g' S'.
Proof.
  intros HS [E H]. split; [done|]. intros k. rewrite H.
  by setoid_rewrite HS.
Qed.

(** A loop whose body adds the squares [S a] at element [a] adds the squares
    of all elements. *)
Lemma forEach_adds {A} (l : list A) (body : A → Game → option Game)
    (S : A → Z → Z → Prop) (g : Game) :
  (∀ a g1, a ∈ l → board g1 = board g →
           ∃ g2, body a g1 = Some g2 ∧ adds g1 g2 (S a)) →
  ∃ g', forEach l body g = Some g' ∧
        adds g g' (λ nx ny, ∃ a, a ∈ l ∧ S a nx ny).
Proof.
  revert g. induction l as [|a l IH]; intros g Hbody; simpl.
  - exists g. split; [done|].
    eapply adds_iff; [|apply adds_refl].
    intros nx ny. split; [done|]. intros (a & Ha & _). by apply elem_of_nil in Ha.
  - destruct (Hbody a g) as (g1 & Hg1 & Hadds1); [left|done|].
    rewrite Hg1. simpl.
    destruct (IH g1) as (g' & Hg' & Hadds').
    { intros a' g2 Ha' Hb. apply Hbody; [by right|].
      rewrite Hb. by eapply adds_board. }
    exists g'. split; [done|].
    eapply adds_iff; [|exact (adds_trans _ _ _ _ _ Hadds1 Hadds')].
    intros nx ny. simpl. split.
    + intros [?|(a' & ? & ?)]; [exists a; split; [left|done]|].
      exists a'. split; [by right|done].
    + intros (a' & [->|?]%elem_of_cons & ?); [by left|].
      right. by exists a'.
Qed.

(** ** Squares off the board *)

Lemma emptyAt_inRange (b : Board) (y x : Z) :
  wfBoard b → emptyAt b y x → inRange y x.
Proof. intros Hwf. apply boardAt_inRange, Hwf. Qed.

Lemma opposingAt_inRange (b : Board) (y x : Z) (c : string) :
  wfBoard b → opposingAt b y x c → inRange y x.
Proof. intros Hwf (t & Ht & _). by eapply boardAt_inRange. Qed.

Lemma onBoard_inRange (y x : Z) : onBoard y x = true ↔ inRange y x.
Proof.
  unfold onBoard, inRange. rewrite !andb_true_iff.
  rewrite !Z.leb_le, !Z.ltb_lt. lia.
Qed.

(** The test of the three fixed-offset loops and of the sliding loop on one
    square: the square is added when it is empty or holds another colour. *)
Lemma target_adds (g : Game) (ny nx : Z) (c : string) (target : option Piece) :
  boardAt (board g) ny nx = Some target →
  ∃ g', match target with
        | Some t =>
            if negb (String.eqb (color t) c)
            then Some (addMove nx ny c g) else Some g
        | None => Some (addMove nx ny c g)
        end = Some g' ∧
        adds g g' (λ nx' ny', nx' = nx ∧ ny' = ny ∧
                     (emptyAt (board g) ny nx ∨ opposingAt (board g) ny nx c)).
Proof.
  intros Ht. destruct target as [t|].
  - destruct (String.eqb_spec (color t) c) as [Heq|Hne]; simpl.
    + exists g. split; [done|].
      eapply adds_iff; [|apply adds_refl].
      intros nx' ny'. split; [done|].
      intros (_ & _ & [He|(t' & Ht' & Hc)]).
      * unfold emptyAt in He. congruence.
      * congruence.
    + eexists. split; [done|].
      eapply adds_iff; [|apply adds_addMove].
      intros nx' ny'. split; [|tauto].
      intros [-> ->]. repeat split. right. by exists t.
  - eexists. split; [done|].
    eapply adds_iff; [|apply adds_addMove].
    intros nx' ny'. split; [|tauto].
    intros [-> ->]. repeat split. by left.
Qed.

Lemma index_of_nat {A} (l : list A) (i : nat) :
  index l (Z.of_nat i) = l !! i.
Proof.
  unfold index. rewrite bool_decide_eq_true_2 by lia. by rewrite Nat2Z.id.
Qed.

Lemma zip_index (yDirs xDirs : list Z) (dy dx : Z) :
  (dy, dx) ∈ zip yDirs xDirs
  ↔ ∃ i, index yDirs i = Some dy ∧ index xDirs i = Some dx.
Proof.
  rewrite elem_of_lookup_zip_with. split.
  - intros (i & a & b & [= -> ->] & Ha & Hb).
    exists (Z.of_nat i). by rewrite !index_of_nat.
  - intros (i & [Hi Ha]%index_Some & [_ Hb]%index_Some).
    by exists (Z.to_nat i), dy, dx.
Qed.

(** The loops [for i := range yDirs] that read [yDirs[i]] and [xDirs[i]]. *)
Lemma forEach_index_adds (yDirs xDirs : list Z)
    (body : Z → Z → Game → option Game) (S : Z → Z → Z → Z → Prop) (g : Game) :
  length xDirs = length yDirs →
  (∀ dy dx g1, (dy, dx) ∈ zip yDirs xDirs → board g1 = board g →
               ∃ g2, body dy dx g1 = Some g2 ∧ adds g1 g2 (S dy dx)) →
  ∃ g', forEach (seqZ 0 (Z.of_nat (length yDirs)))
          (λ i g, dy ← index yDirs i; dx ← index xDirs i; body dy dx g) g
        = Some g' ∧
        adds g g' (λ nx ny, ∃ dy dx, (dy, dx) ∈ zip yDirs xDirs ∧ S dy dx nx ny).
Proof.
  intros Hlen Hbody.
  destruct (forEach_adds (seqZ 0 (Z.of_nat (length yDirs)))
              (λ i g, dy ← index yDirs i; dx ← index xDirs i; body dy dx g)
              (λ i nx ny, ∃ dy dx, index yDirs i = Some dy ∧
                                   index xDirs i = Some dx ∧ S dy dx nx ny) g)
    as (g' & Hg' & Hadds).
  { intros i g1 [Hi0 Hi]%elem_of_seqZ Hb.
    destruct (index_is_Some yDirs i) as [dy Hdy]; [lia|].
    destruct (index_is_Some xDirs i) as [dx Hdx]; [lia|].
    destruct (Hbody dy dx g1) as (g2 & Hg2 & Hadds2); [|done|].
    { apply zip_index. by exists i. }
    exists g2. rewrite Hdy, Hdx. simpl. split; [done|].
    eapply adds_iff; [|exact Hadds2].
    intros nx ny. split; [by exists dy, dx|].
    intros (dy' & dx' & ? & ? & ?). congruence. }
  exists g'. split; [done|].
  eapply adds_iff; [|exact Hadds].
  intros nx ny. split.
  - intros (i & _ & dy & dx & Hdy & Hdx & HS).
    exists dy, dx. split; [|done]. apply zip_index. by exists i.
  - intros (dy & dx & (i & Hdy & Hdx)%zip_index & HS).
    exists i. split; [|by exists dy, dx].
    apply index_Some in Hdy as [Hi Hdy]. apply lookup_lt_Some in Hdy.
    apply elem_of_seqZ. lia.
Qed.

(** ** Sliding pieces *)

Lemma slideRay_adds (ds : list Z) (y x dy dx : Z) (c : string) (g : Game) :
  wfBoard (board g) →
  ∃ g', slideRay ds y x dy dx c g = Some g' ∧
        adds g g' (rayReach (board g) ds y x dy dx c).
Proof.
  revert g. induction ds as [|d ds IH]; intros g Hwf; cbn [slideRay rayReach].
  { exists g. split; [done|]. apply adds_refl. }
  cbv zeta.
  destruct ((x + d * dx <? 0) || (x + d * dx >=? 8) || (y + d * dy <? 0)
            || (y + d * dy >=? 8)) eqn:Hout.
  - exists g. split; [done|].
    eapply adds_iff; [|apply adds_refl].
    intros nx ny. split; [done|].
    assert (¬ inRange (y + d * dy) (x + d * dx)) as Hno.
    { unfold inRange. rewrite !orb_true_iff in Hout.
      rewrite !Z.ltb_lt, !Z.geb_le in Hout. lia. }
    intros [(-> & -> & [He|Ho])|[He _]]; apply Hno.
    + by eapply emptyAt_inRange.
    + by eapply opposingAt_inRange.
    + by eapply emptyAt_inRange.
  - assert (inRange (y + d * dy) (x + d * dx)) as Hin.
    { unfold inRange. rewrite !orb_false_iff in Hout.
      rewrite !Z.ltb_ge, !Z.geb_leb, !Z.leb_gt in Hout. lia. }
    destruct (boardAt_is_Some _ _ _ Hwf Hin) as [target Ht].
    rewrite Ht. simpl. destruct target as [t|].
    + destruct (target_adds g (y + d * dy) (x + d * dx) c (Some t) Ht)
        as (g' & Hg' & Hadds).
      exists g'. split; [done|].
      eapply adds_iff; [|exact Hadds].
      intros nx ny. split.
      * intros (-> & -> & H). by left.
      * intros [(-> & -> & H)|[He _]]; [done|].
        unfold emptyAt in He. congruence.
    + destruct (IH (addMove (x + d * dx) (y + d * dy) c g) Hwf)
        as (g' & Hg' & Hadds).
      exists g'. split; [done|].
      eapply adds_iff; [|exact (adds_trans _ _ _ _ _ (adds_addMove _ _ _ _) Hadds)].
      intros nx ny. simpl. split.
      * intros [[-> ->]|H]; [left|right]; [|done].
        repeat split. by left.
      * intros [(-> & -> & _)|[_ H]]; [by left|by right].
Qed.

Lemma rayReach_seqZ (b : Board) (n : nat) (a y x dy dx : Z) (c : string)
    (nx ny : Z) :
  rayReach b (seqZ a (Z.of_nat n)) y x dy dx c nx ny
  ↔ ∃ d, a <= d < a + Z.of_nat n ∧ ny = y + d * dy ∧ nx = x + d * dx ∧
         (∀ d', a <= d' < d → emptyAt b (y + d' * dy) (x + d' * dx)) ∧
         (emptyAt b ny nx ∨ opposingAt b ny nx c).
Proof.
  revert a. induction n as [|n IH]; intros a.
  { simpl. split; [done|]. intros (d & ? & _). lia. }
  rewrite seqZ_cons by lia.
  replace (Z.pred (Z.of_nat (S n))) with (Z.of_nat n) by lia.
  cbn [rayReach]. rewrite IH. split.
  - intros [(-> & -> & H)|(He & d & Hd & -> & -> & Hbefore & H)].
    + exists a. split; [lia|]. do 2 (split; [done|]).
      split; [intros d' ?; lia|done].
    + exists d. split; [lia|]. do 2 (split; [done|]). split; [|done].
      intros d' Hd'. destruct (decide (d' = a)) as [->|]; [done|].
      apply Hbefore. lia.
  - intros (d & Hd & -> & -> & Hbefore & H).
    destruct (decide (d = a)) as [->|Hne]; [by left|].
    right. split; [apply Hbefore; lia|].
    exists d. split; [lia|]. do 2 (split; [done|]). split; [|done].
    intros d' Hd'. apply Hbefore. lia.
Qed.

(** On the board, a ray in one of the eight directions is at most seven
    squares long, so the loop bound [d < 8] loses nothing. *)
Lemma rayReach_onRay (b : Board) (y x dy dx : Z) (c : string) (nx ny : Z) :
  wfBoard b → inRange y x → (dy, dx) ∈ queenRays →
  rayReach b (seqZ 1 7) y x dy dx c nx ny ↔ onRay b y x dy dx c ny nx.
Proof.
  intros Hwf Hsrc Hdir. change 7 with (Z.of_nat 7).
  rewrite rayReach_seqZ. unfold onRay. split.
  - intros (d & Hd & H). exists d. split; [lia|done].
  - intros (d & Hd & Hy & Hx & Hbefore & H). exists d. split; [|done].
    assert (inRange ny nx) as Hin.
    { destruct H; [by eapply emptyAt_inRange|by eapply opposingAt_inRange]. }
    unfold inRange in *. subst ny nx.
    unfold queenRays, rookRays, bishopRays in Hdir. simpl in Hdir.
    set_unfold in Hdir. destruct_or!; simplify_eq; lia.
Qed.

Lemma adds_none (g : Game) (S : Z → Z → Prop) :
  (∀ nx ny, ¬ S nx ny) → adds g g S.
Proof.
  intros HS. eapply adds_iff; [|apply adds_refl].
  intros nx ny. split; [done|apply HS].
Qed.

Lemma addSlidingMoves_adds (y x : Z) (c : string) (yDirs xDirs : list Z)
    (g : Game) :
  wfBoard (board g) → inRange y x →
  length xDirs = length yDirs →
  (∀ r, r ∈ zip yDirs xDirs → r ∈ queenRays) →
  ∃ g', addSlidingMoves y x c yDirs xDirs g = Some g' ∧
        adds g g' (λ nx ny, ∃ dy dx, (dy, dx) ∈ zip yDirs xDirs ∧
                                     onRay (board g) y x dy dx c ny nx).
Proof.
  intros Hwf Hsrc Hlen Hdirs. unfold addSlidingMoves.
  apply (forEach_index_adds yDirs xDirs
           (λ dy dx g, slideRay (seqZ 1 7) y x dy dx c g)
           (λ dy dx nx ny, onRay (board g) y x dy dx c ny nx)); [done|].
  intros dy dx g1 Hdir Hb.
  destruct (slideRay_adds (seqZ 1 7) y x dy dx c g1) as (g2 & Hg2 & Hadds).
  { by rewrite Hb. }
  exists g2. split; [done|].
  eapply adds_iff; [|exact Hadds].
  intros nx ny. rewrite Hb. apply rayReach_onRay; auto.
Qed.

(** ** Knight and king *)

(** The body shared by the knight and king loops on one candidate square. *)
Lemma step_adds (g : Game) (ny nx : Z) (c : string) :
  wfBoard (board g) →
  ∃ g', (if onBoard ny nx then
           target ← boardAt (board g) ny nx;
           match target with
           | Some t =>
               if negb (String.eqb (color t) c)
               then Some (addMove nx ny c g) else Some g
           | None => Some (addMove nx ny c g)
           end
         else Some g) = Some g' ∧
        adds g g' (λ nx' ny', nx' = nx ∧ ny' = ny ∧
                     (emptyAt (board g) ny nx ∨ opposingAt (board g) ny nx c)).
Proof.
  intros Hwf. destruct (onBoard ny nx) eqn:Hon.
  - apply onBoard_inRange in Hon.
    destruct (boardAt_is_Some _ _ _ Hwf Hon) as [target Ht].
    rewrite Ht. simpl. by apply target_adds.
  - exists g. split; [done|]. apply adds_none.
    intros nx' ny' (_ & _ & H).
    assert (inRange ny nx) as Hin
      by (destruct H; [by eapply emptyAt_inRange|by eapply opposingAt_inRange]).
    apply onBoard_inRange in Hin. congruence.
Qed.

Lemma addKnightMoves_adds (y x : Z) (c : string) (g : Game) :
  wfBoard (board g) →
  ∃ g', addKnightMoves y x c g = Some g' ∧
        adds g g' (λ nx ny, onStep (board g) y x knightOffsets c ny nx).
Proof.
  intros Hwf. unfold addKnightMoves. cbv zeta.
  destruct (forEach_index_adds [-2; -2; -1; -1; 1; 1; 2; 2]
              [-1; 1; -2; 2; -2; 2; -1; 1]
              (λ dy dx g,
                 if onBoard (y + dy) (x + dx) then
                   target ← boardAt (board g) (y + dy) (x + dx);
                   match target with
                   | Some t =>
                       if negb (String.eqb (color t) c)
                       then Some (addMove (x + dx) (y + dy) c g) else Some g
                   | None => Some (addMove (x + dx) (y + dy) c g)
                   end
                 else Some g)
              (λ dy dx nx ny, nx = x + dx ∧ ny = y + dy ∧
                 (emptyAt (board g) (y + dy) (x + dx)
                  ∨ opposingAt (board g) (y + dy) (x + dx) c)) g)
    as (g' & Hg' & Hadds); [done| |].
  { intros dy dx g1 _ Hb. rewrite <- Hb. by apply step_adds; rewrite Hb. }
  exists g'. split; [exact Hg'|].
  eapply adds_iff; [|exact Hadds].
  intros nx ny. unfold onStep. split.
  - intros (dy & dx & Hin & -> & -> & H). by exists dy, dx.
  - intros (dy & dx & Hin & -> & -> & H). by exists dy, dx.
Qed.

Lemma addKingMoves_adds (y x : Z) (c : string) (g : Game) :
  wfBoard (board g) →
  ∃ g', addKingMoves y x c g = Some g' ∧
        adds g g' (λ nx ny, onStep (board g) y x kingOffsets c ny nx).
Proof.
  intros Hwf. unfold addKingMoves.
  destruct (forEach_adds (seqZ (-1) 3)
    (λ dy g,
       forEach (seqZ (-1) 3)
         (λ dx g,
            if (dy =? 0) && (dx =? 0) then Some g
            else
              let ny := y + dy in
              let nx := x + dx in
              if onBoard ny nx then
                target ← boardAt (board g) ny nx;
                match target with
                | Some t =>
                    if negb (String.eqb (color t) c)
                    then Some (addMove nx ny c g) else Some g
                | None => Some (addMove nx ny c g)
                end
              else Some g) g)
    (λ dy nx ny, ∃ dx, dx ∈ seqZ (-1) 3 ∧
       ¬ (dy = 0 ∧ dx = 0) ∧ nx = x + dx ∧ ny = y + dy ∧
       (emptyAt (board g) (y + dy) (x + dx)
        ∨ opposingAt (board g) (y + dy) (x + dx) c)) g)
    as (g' & Hg' & Hadds).
  { intros dy g1 _ Hb1.
    apply (forEach_adds (seqZ (-1) 3) _
             (λ dx nx ny, ¬ (dy = 0 ∧ dx = 0) ∧ nx = x + dx ∧ ny = y + dy ∧
                (emptyAt (board g) (y + dy) (x + dx)
                 ∨ opposingAt (board g) (y + dy) (x + dx) c))).
    intros dx g2 _ Hb2. cbv zeta.
    destruct ((dy =? 0) && (dx =? 0)) eqn:Hzero.
    - exists g2. split; [done|]. apply adds_none.
      intros nx ny (Hne & _). apply Hne.
      apply andb_true_iff in Hzero as [?%Z.eqb_eq ?%Z.eqb_eq]. done.
    - destruct (step_adds g2 (y + dy) (x + dx) c) as (g3 & Hg3 & Hadds3).
      { by rewrite Hb2, Hb1. }
      exists g3. split; [done|].
      eapply adds_iff; [|exact Hadds3].
      intros nx ny. rewrite Hb2, Hb1. split; [|tauto].
      intros (-> & -> & H). split; [|done].
      intros [-> ->]. done. }
  exists g'. split; [exact Hg'|].
  eapply adds_iff; [|exact Hadds].
  intros nx ny. unfold onStep, kingOffsets. split.
  - intros (dy & Hdy%elem_of_seqZ & dx & Hdx%elem_of_seqZ & Hne & -> & -> & H).
    exists dy, dx. split; [|done].
    assert (dy = -1 ∨ dy = 0 ∨ dy = 1) as Hy by lia.
    assert (dx = -1 ∨ dx = 0 ∨ dx = 1) as Hx by lia.
    set_unfold. destruct_or!; subst; try tauto; try (exfalso; tauto).
  - intros (dy & dx & Hin & -> & -> & H).
    assert (-1 <= dy < 2 ∧ -1 <= dx < 2 ∧ ¬ (dy = 0 ∧ dx = 0))
      as (Hy & Hx & Hne).
    { set_unfold in Hin. destruct_or!; simplify_eq; lia. }
    exists dy. split; [apply elem_of_seqZ; lia|].
    exists dx. split; [apply elem_of_seqZ; lia|]. done.
Qed.

(** ** Pawns *)

Lemma adds_one (g : Game) (x y : Z) (c : string) (S : Z → Z → Prop) :
  (∀ nx ny, S nx ny ↔ nx = x ∧ ny = y) → adds g (addMove x y c g) S.
Proof.
  intros HS. eapply adds_iff; [|apply adds_addMove].
  intros nx ny. by rewrite HS.
Qed.

(** Two blocks in sequence. *)
Lemma bind_adds (m : option Game) (f : Game → option Game) (g : Game)
    (S1 S2 S : Z → Z → Prop) :
  (∀ nx ny, S nx ny ↔ S1 nx ny ∨ S2 nx ny) →
  (∃ g1, m = Some g1 ∧ adds g g1 S1) →
  (∀ g1, board g1 = board g → ∃ g2, f g1 = Some g2 ∧ adds g1 g2 S2) →
  ∃ g2, m ≫= f = Some g2 ∧ adds g g2 S.
Proof.
  intros HS (g1 & -> & Hadds1) Hf. simpl.
  destruct (Hf g1) as (g2 & Hg2 & Hadds2); [by eapply adds_board|].
  exists g2. split; [done|].
  eapply adds_iff; [|exact (adds_trans _ _ _ _ _ Hadds1 Hadds2)].
  intros nx ny. by rewrite HS.
Qed.

Lemma pawnDir_cases (c : string) :
  (pawnDir c = 1 ∧ pawnStart c = 1) ∨ (pawnDir c = -1 ∧ pawnStart c = 6).
Proof. unfold pawnDir, pawnStart. destruct (String.eqb c "black"); auto. Qed.

Lemma addPawnMoves_adds (y x : Z) (c : string) (g : Game) :
  wfBoard (board g) → inRange y x →
  ∃ g', addPawnMoves y x c g = Some g' ∧
        adds g g' (λ nx ny, pawnReach (board g) y x c ny nx).
Proof.
  intros Hwf Hsrc. unfold addPawnMoves. cbv zeta.
  change (if String.eqb c "black" then 1 else -1) with (pawnDir c).
  change (if String.eqb c "black" then 1 else 6) with (pawnStart c).
  pose proof (pawnDir_cases c) as Hdir.
  unfold pawnReach.
  set (dir := pawnDir c) in *. set (start := pawnStart c) in *.
  apply (bind_adds _ _ g
    (λ nx ny,
      (nx = x ∧ ny = y + dir ∧ emptyAt (board g) ny nx)
      ∨ (nx = x ∧ ny = y + 2 * dir ∧ y = start ∧
         emptyAt (board g) (y + dir) x ∧ emptyAt (board g) ny nx))
    (λ nx ny, (nx = x - 1 ∨ nx = x + 1) ∧ ny = y + dir ∧
              opposingAt (board g) ny nx c)).
  { intros nx ny. tauto. }
  { destruct ((0 <=? y + dir) && (y + dir <? 8)) eqn:Hr1.
    - assert (inRange (y + dir) x) as Hin1.
      { apply andb_true_iff in Hr1 as [?%Z.leb_le ?%Z.ltb_lt].
        unfold inRange in *. lia. }
      destruct (boardAt_is_Some _ _ _ Hwf Hin1) as [c0 Hc0].
      rewrite Hc0. simpl. destruct c0 as [t|].
      + exists g. split; [done|]. apply adds_none.
        intros nx ny [(-> & -> & He)|(_ & _ & _ & He & _)];
          unfold emptyAt in He; congruence.
      + destruct (y =? start) eqn:Hst.
        * apply Z.eqb_eq in Hst.
          destruct ((0 <=? y + 2 * dir) && (y + 2 * dir <? 8)) eqn:Hr2.
          -- assert (inRange (y + 2 * dir) x) as Hin2.
             { apply andb_true_iff in Hr2 as [?%Z.leb_le ?%Z.ltb_lt].
               unfold inRange in *. lia. }
             destruct (boardAt_is_Some _ _ _ Hwf Hin2) as [c2 Hc2].
             rewrite Hc2. simpl. destruct c2 as [t|].
             ++ eexists. split; [done|]. apply adds_one.
                intros nx ny. split.
                ** intros [(-> & -> & He)|(-> & -> & _ & _ & He)]; [done|].
                   unfold emptyAt in He. congruence.
                ** intros [-> ->]. by left.
             ++ eexists. split; [done|].
                eapply adds_iff;
                  [|exact (adds_trans _ _ _ _ _
                             (adds_addMove g x (y + dir) c)
                             (adds_addMove _ x (y + 2 * dir) c))].
                intros nx ny. simpl. split.
                ** intros [[-> ->]|[-> ->]]; [by left|by right].
                ** intros [(-> & -> & _)|(-> & -> & _)]; [by left|by right].
          -- eexists. split; [done|]. apply adds_one.
             intros nx ny. split.
             ** intros [(-> & -> & He)|(-> & -> & _ & _ & He)]; [done|].
                apply emptyAt_inRange in He; [|done].
                apply andb_false_iff in Hr2 as [?%Z.leb_gt|?%Z.ltb_ge];
                  unfold inRange in He; lia.
             ** intros [-> ->]. by left.
        * apply Z.eqb_neq in Hst. eexists. split; [done|]. apply adds_one.
          intros nx ny. split.
          -- intros [(-> & -> & He)|(_ & _ & ? & _)]; done.
          -- intros [-> ->]. by left.
    - exists g. split; [done|]. apply adds_none.
      intros nx ny H.
      assert (inRange (y + dir) x) as Hin.
      { destruct H as [(-> & -> & He)|(_ & _ & _ & He & _)];
          by eapply emptyAt_inRange. }
      apply andb_false_iff in Hr1 as [?%Z.leb_gt|?%Z.ltb_ge];
        unfold inRange in Hin; lia. }
  intros g1 Hb1.
  destruct (forEach_adds [-1; 1]
    (λ dx g,
       if onBoard (y + dir) (x + dx) then
         target ← boardAt (board g) (y + dir) (x + dx);
         match target with
         | Some t =>
             if negb (String.eqb (color t) c)
             then Some (addMove (x + dx) (y + dir) c g) else Some g
         | None => Some g
         end
       else Some g)
    (λ dx nx ny, nx = x + dx ∧ ny = y + dir ∧
                 opposingAt (board g) (y + dir) (x + dx) c) g1)
    as (g2 & Hg2 & Hadds2).
  { intros dx g2 _ Hb2.
    destruct (onBoard (y + dir) (x + dx)) eqn:Hon.
    - apply onBoard_inRange in Hon.
      assert (wfBoard (board g2)) as Hwf2 by (by rewrite Hb2, Hb1).
      destruct (boardAt_is_Some _ _ _ Hwf2 Hon) as [target Ht].
      rewrite Ht. simpl. rewrite Hb2, Hb1 in Ht. destruct target as [t|].
      + destruct (String.eqb_spec (color t) c) as [Heq|Hne]; simpl.
        * exists g2. split; [done|]. apply adds_none.
          intros nx ny (_ & _ & t' & Ht' & Hc). congruence.
        * eexists. split; [done|]. apply adds_one.
          intros nx ny. split; [tauto|]. intros [-> ->].
          repeat split. by exists t.
      + exists g2. split; [done|]. apply adds_none.
        intros nx ny (_ & _ & t' & Ht' & Hc). congruence.
    - exists g2. split; [done|]. apply adds_none.
      intros nx ny (_ & _ & Ho).
      apply opposingAt_inRange, onBoard_inRange in Ho; [|done]. congruence. }
  exists g2. split; [exact Hg2|].
  eapply adds_iff; [|exact Hadds2].
  intros nx ny. split.
  - intros (dx & Hdx & -> & -> & Ho). set_unfold in Hdx.
    split; [|done]. destruct_or!; subst; lia.
  - intros (Hnx & -> & Ho).
    destruct Hnx as [-> | ->];
      [exists (-1); split; [left|]|exists 1; split; [right; left|]];
      repeat split; try lia.
    + by replace (x + -1) with (x - 1) by lia.
    + done.
Qed.

(** ** calculateLegalMoves *)

Lemma free_sound (b : Board) (ny nx : Z) (c : string) :
  wfBoard b → emptyAt b ny nx ∨ opposingAt b ny nx c →
  inRange ny nx ∧ ∀ q, boardAt b ny nx = Some (Some q) → color q ≠ c.
Proof.
  intros Hwf [He|(t & Ht & Hc)].
  - split; [by eapply emptyAt_inRange|].
    intros q Hq. unfold emptyAt in He. congruence.
  - split; [by eapply boardAt_inRange|].
    intros q Hq. congruence.
Qed.

(** What [calculateLegalMoves] computes on an occupied square. *)
Lemma calculateLegalMoves_adds (y x : Z) (p : Piece) (g : Game) :
  wfBoard (board g) → boardAt (board g) y x = Some (Some p) →
  ∃ g', calculateLegalMoves y x g = Some g' ∧
        adds (withLegalMoves ∅ g) g' (λ nx ny, movesOf (board g) y x p ny nx).
Proof.
  intros Hwf Hp.
  assert (inRange y x) as Hsrc by (by eapply boardAt_inRange).
  unfold calculateLegalMoves, movesOf. cbv zeta.
  change (board (withLegalMoves ∅ g)) with (board g). rewrite Hp. simpl.
  destruct (symbol p =? pieces "white_pawn");
    [by apply (addPawnMoves_adds y x "white" (withLegalMoves ∅ g))|].
  destruct (symbol p =? pieces "black_pawn");
    [by apply (addPawnMoves_adds y x "black" (withLegalMoves ∅ g))|].
  destruct ((symbol p =? pieces "white_rook")
            || (symbol p =? pieces "black_rook")).
  { apply (addSlidingMoves_adds y x (color p) [-1; 1; 0; 0] [0; 0; -1; 1]
             (withLegalMoves ∅ g)); [done..|].
    intros r Hr. set_unfold. tauto. }
  destruct ((symbol p =? pieces "white_bishop")
            || (symbol p =? pieces "black_bishop")).
  { apply (addSlidingMoves_adds y x (color p) [-1; -1; 1; 1] [-1; 1; -1; 1]
             (withLegalMoves ∅ g)); [done..|].
    intros r Hr. set_unfold. tauto. }
  destruct ((symbol p =? pieces "white_queen")
            || (symbol p =? pieces "black_queen")).
  { apply (addSlidingMoves_adds y x (color p) [-1; 1; 0; 0; -1; -1; 1; 1]
             [0; 0; -1; 1; -1; 1; -1; 1] (withLegalMoves ∅ g)); [done..|].
    intros r Hr. set_unfold. tauto. }
  destruct ((symbol p =? pieces "white_knight")
            || (symbol p =? pieces "black_knight"));
    [by apply (addKnightMoves_adds y x (color p) (withLegalMoves ∅ g))|].
  destruct ((symbol p =? pieces "white_king")
            || (symbol p =? pieces "black_king"));
    [by apply (addKingMoves_adds y x (color p) (withLegalMoves ∅ g))|].
  eexists. split; [done|]. apply adds_refl.
Qed.

Lemma mapGet_empty (k : string) : mapGet ∅ k = false.
Proof. unfold mapGet. by rewrite lookup_empty. Qed.

(** From the keys to the squares: a generated set of in-range squares is the
    legal-destination set. *)
Lemma adds_legalSet (g g' : Game) (S : Z → Z → Prop) :
  adds (withLegalMoves ∅ g) g' (λ nx ny, S ny nx) →
  (∀ ny nx, S ny nx → inRange ny nx) →
  g' = withLegalMoves (legalMoves g') g ∧ legalSet g' S.
Proof.
  intros [E Hk] Hin. split; [by rewrite E at 1|].
  assert (∀ k, mapGet (legalMoves g') k = true
               ↔ ∃ nx ny, k = key nx ny ∧ S ny nx) as Hk'.
  { intros k. rewrite Hk. simpl. rewrite mapGet_empty. split.
    - intros [?|?]; done.
    - by right. }
  split.
  - intros k (nx & ny & -> & HS)%Hk'. exists nx, ny. split; [done|by apply Hin].
  - intros ny nx. rewrite Hk'. split; [|by exists nx, ny].
    intros (nx' & ny' & Hkey & HS).
    destruct (Hin _ _ HS) as [Hy Hx].
    by apply key_inj in Hkey as [-> ->].
Qed.

Lemma pawnReach_sound (b : Board) (y x : Z) (c : string) (ny nx : Z) :
  wfBoard b → pawnReach b y x c ny nx →
  inRange ny nx ∧ ∀ q, boardAt b ny nx = Some (Some q) → color q ≠ c.
Proof.
  intros Hwf [(_ & _ & He)|[(_ & _ & _ & _ & He)|(_ & _ & Ho)]];
    apply free_sound; auto.
Qed.

Lemma onRay_sound (b : Board) (y x dy dx : Z) (c : string) (ny nx : Z) :
  wfBoard b → onRay b y x dy dx c ny nx →
  inRange ny nx ∧ ∀ q, boardAt b ny nx = Some (Some q) → color q ≠ c.
Proof. intros Hwf (d & _ & _ & _ & _ & H). by apply free_sound. Qed.

Lemma onStep_sound (b : Board) (y x : Z) (offsets : list (Z * Z)) (c : string)
    (ny nx : Z) :
  wfBoard b → onStep b y x offsets c ny nx →
  inRange ny nx ∧ ∀ q, boardAt b ny nx = Some (Some q) → color q ≠ c.
Proof. intros Hwf (dy & dx & _ & _ & _ & H). by apply free_sound. Qed.

(** Every generated square is on the board and not held by the colour of the
    piece that moves, when that piece is one the program builds. *)
Lemma movesOf_sound (b : Board) (y x : Z) (p : Piece) (ny nx : Z) :
  wfBoard b → wfPiece p → movesOf b y x p ny nx →
  inRange ny nx ∧ ∀ q, boardAt b ny nx = Some (Some q) → color q ≠ color p.
Proof.
  intros Hwf (c & k & Hc & Hk & ->). unfold pieceKinds in Hk.
  set_unfold in Hc. set_unfold in Hk.
  destruct_or!; subst;
    unfold movesOf; cbn [symbol color]; cbv [String.append]; eval_pieces;
    cbn [Z.eqb Pos.eqb orb];
    first [apply pawnReach_sound; exact Hwf
          |intros (dy & dx & _ & H); revert H; apply onRay_sound; exact Hwf
          |apply onStep_sound; exact Hwf].
Qed.

Lemma movesOf_sliding (k : Sliding) (b : Board) (y x : Z) (p : Piece)
    (ny nx : Z) :
  slidingSymbol k (symbol p) →
  movesOf b y x p ny nx
  ↔ ∃ dy dx, (dy, dx) ∈ raysOf k ∧ onRay b y x dy dx (color p) ny nx.
Proof.
  intros Hk. unfold movesOf. cbv zeta.
  destruct k; cbn [slidingSymbol raysOf] in *; destruct Hk as [Hk|Hk];
    rewrite Hk; eval_pieces; cbn [Z.eqb Pos.eqb orb]; reflexivity.
Qed.

Lemma movesOf_pawn (b : Board) (y x : Z) (c : string) (ny nx : Z) :
  c = "white" ∨ c = "black" →
  movesOf b y x (mkPiece c (pieces (c +:+ "_pawn"))) ny nx
  ↔ pawnReach b y x c ny nx.
Proof.
  intros [-> | ->]; unfold movesOf; cbn [symbol color]; cbv [String.append];
    eval_pieces; cbn [Z.eqb Pos.eqb orb]; reflexivity.
Qed.

(** C4. On a well-shaped board, for a piece of one of the six kinds and two
    colours on an in-range square (and for an empty square, where nothing is
    generated), every destination [calculateLegalMoves] puts in the set is the
    key of a square inside the 8x8 board, and that square holds no piece of
    the colour of the piece that moves. *)
Theorem C4_destinations_on_board_not_own_colour (g : Game) (y x : Z) :
  wfBoard (board g) → inRange y x →
  (∀ p, boardAt (board g) y x = Some (Some p) → wfPiece p) →
  ∃ g', calculateLegalMoves y x g = Some g' ∧
        ∀ k, mapGet (legalMoves g') k = true →
             ∃ nx ny, k = key nx ny ∧ inRange ny nx ∧
                      ∀ p q, boardAt (board g) y x = Some (Some p) →
                             boardAt (board g) ny nx = Some (Some q) →
                             color q ≠ color p.
Proof.
  intros Hwf Hsrc Hpiece.
  destruct (boardAt_is_Some _ _ _ Hwf Hsrc) as [[p|] Hp].
  - destruct (calculateLegalMoves_adds y x p g Hwf Hp) as (g' & Hg' & [_ Hk]).
    exists g'. split; [exact Hg'|].
    intros k [Hold|(nx & ny & -> & Hmoves)]%Hk.
    { simpl in Hold. by rewrite mapGet_empty in Hold. }
    destruct (movesOf_sound _ _ _ _ _ _ Hwf (Hpiece p Hp) Hmoves) as [Hin Hcol].
    exists nx, ny. split; [reflexivity|]. split; [exact Hin|].
    intros p' q Hp' Hq. rewrite Hp in Hp'. injection Hp' as <-.
    by apply Hcol.
  - exists (withLegalMoves ∅ g). split.
    + unfold calculateLegalMoves. cbv zeta.
      change (board (withLegalMoves ∅ g)) with (board g). by rewrite Hp.
    + intros k Hk. simpl in Hk. by rewrite mapGet_empty in Hk.
Qed.

Lemma C4_destinations_on_board_not_own_colour_witness :
  ∃ g', calculateLegalMoves 7 1 NewGame = Some g' ∧
        ∀ k, mapGet (legalMoves g') k = true →
             ∃ nx ny, k = key nx ny ∧ inRange ny nx ∧
                      ∀ p q, boardAt (board NewGame) 7 1 = Some (Some p) →
                             boardAt (board NewGame) ny nx = Some (Some q) →
                             color q ≠ color p.
Proof.
  apply (C4_destinations_on_board_not_own_colour NewGame 7 1).
  - exact NewGame_wf.
  - unfold inRange. lia.
  - intros p Hp. vm_compute in Hp. injection Hp as <-.
    exists "white", "knight".
    split; [left|]. split; [|reflexivity].
    unfold pieceKinds. do 4 right. left.
Defined.

(** C5. For a rook, bishop or queen on a well-shaped board, the generated set
    is exactly the union of its rays, and a ray holds the squares at distance
    [d >= 1] in its direction such that every square strictly before is empty
    and the square itself is empty or holds an opposing piece: all the empty
    squares before the first occupied one, and that one when it is an
    opponent's.  From the initial position the white rook at (7,0) has no
    destination. *)
Theorem C5_sliding_rays_stop_at_first_piece :
  (∀ (k : Sliding) (g : Game) (y x : Z) (p : Piece),
     wfBoard (board g) →
     boardAt (board g) y x = Some (Some p) →
     slidingSymbol k (symbol p) →
     ∃ g', calculateLegalMoves y x g = Some g' ∧
           g' = withLegalMoves (legalMoves g') g ∧
           legalSet g'
             (λ ny nx, ∃ dy dx, (dy, dx) ∈ raysOf k ∧
                                onRay (board g) y x dy dx (color p) ny nx)) ∧
  (∃ g', calculateLegalMoves 7 0 NewGame = Some g' ∧ legalMoves g' = ∅).
Proof.
  split.
  - intros k g y x p Hwf Hp Hk.
    destruct (calculateLegalMoves_adds y x p g Hwf Hp) as (g' & Hg' & Hadds).
    exists g'. split; [exact Hg'|].
    apply adds_legalSet.
    + eapply adds_iff; [|exact Hadds].
      intros nx ny. by apply movesOf_sliding.
    + intros ny nx (dy & dx & _ & H). by eapply onRay_sound.
  - eexists. split; [vm_compute; reflexivity|reflexivity].
Qed.

Lemma C5_sliding_rays_stop_at_first_piece_witness :
  ∃ g', calculateLegalMoves 7 0 NewGame = Some g' ∧
        g' = withLegalMoves (legalMoves g') NewGame ∧
        legalSet g'
          (λ ny nx, ∃ dy dx, (dy, dx) ∈ raysOf Rook ∧
                             onRay (board NewGame) 7 0 dy dx "white" ny nx).
Proof.
  apply (proj1 C5_sliding_rays_stop_at_first_piece Rook NewGame 7 0
           (mkPiece "white" (pieces "white_rook"))).
  - exact NewGame_wf.
  - reflexivity.
  - left. reflexivity.
Defined.

(** C6. For a pawn on a well-shaped board the generated set is exactly: the
    square one step forward (towards row 0 for white, row 7 for black) when it
    is empty; the square two steps forward when the pawn stands on its
    starting rank (row 6 for white, row 1 for black) and both squares are
    empty; and each forward-diagonal neighbour that holds an opposing piece.
    From the initial position the white pawn at (6,4) can go to (5,4) and
    (4,4) and not to (3,4). *)
Theorem C6_pawn_destinations :
  (∀ (g : Game) (y x : Z) (c : string),
     wfBoard (board g) →
     c = "white" ∨ c = "black" →
     boardAt (board g) y x = Some (Some (mkPiece c (pieces (c +:+ "_pawn")))) →
     ∃ g', calculateLegalMoves y x g = Some g' ∧
           g' = withLegalMoves (legalMoves g') g ∧
           legalSet g' (pawnReach (board g) y x c)) ∧
  (∃ g', calculateLegalMoves 6 4 NewGame = Some g' ∧
         mapGet (legalMoves g') (key 4 5) = true ∧
         mapGet (legalMoves g') (key 4 4) = true ∧
         mapGet (legalMoves g') (key 4 3) = false).
Proof.
  split.
  - intros g y x c Hwf Hc Hp.
    destruct (calculateLegalMoves_adds y x _ g Hwf Hp) as (g' & Hg' & Hadds).
    exists g'. split; [exact Hg'|].
    apply adds_legalSet.
    + eapply adds_iff; [|exact Hadds].
      intros nx ny. by apply movesOf_pawn.
    + intros ny nx H. by eapply pawnReach_sound.
  - eexists. split; [vm_compute; reflexivity|].
    repeat split; vm_compute; reflexivity.
Qed.

Lemma C6_pawn_destinations_witness :
  ∃ g', calculateLegalMoves 6 4 NewGame = Some g' ∧
        g' = withLegalMoves (legalMoves g') NewGame ∧
        legalSet g' (pawnReach (board NewGame) 6 4 "white").
Proof.
  apply (proj1 C6_pawn_destinations NewGame 6 4 "white").
  - exact NewGame_wf.
  - left. reflexivity.
  - reflexivity.
Defined.

(** * Further properties of the program *)

(** ** applyMove: bounds, frame and piece count *)

Lemma boardAt_None_out_of_range (b : Board) (y x : Z) :
  wfBoard b → ¬ inRange y x → boardAt b y x = None.
Proof.
  intros Hwf Hout. destruct (boardAt b y x) as [c|] eqn:Hc; [|done].
  destruct Hout. by eapply boardAt_inRange.
Qed.

(** [applyMove] touches nothing of the game but the board, the player, the
    flag and the message. *)
Lemma applyMove_frame (fromY fromX toY toX : Z) (g g' : Game) :
  applyMove fromY fromX toY toX g = Some g' →
  cursorX g' = cursorX g ∧ cursorY g' = cursorY g ∧
  selectedX g' = selectedX g ∧ selectedY g' = selectedY g ∧
  legalMoves g' = legalMoves g ∧
  currentThemeIndex g' = currentThemeIndex g ∧
  squareWidth g' = squareWidth g ∧ squareHeight g' = squareHeight g.
Proof.
  unfold applyMove.
  destruct (boardAt (board g) fromY fromX) as [piece|]; [simpl|discriminate].
  destruct (boardAt (board g) toY toX) as [target|]; [simpl|discriminate].
  destruct target as [t|];
    [destruct ((symbol t =? pieces "white_king")
               || (symbol t =? pieces "black_king"))|];
    cbn [board withMessage withGameOver];
    (destruct (boardSet (board g) toY toX piece) as [b1|];
       [simpl|discriminate]);
    (destruct (boardSet b1 fromY fromX None) as [b2|]; [simpl|discriminate]);
    destruct (String.eqb (currentPlayer g) "white");
    intros [= <-]; repeat split.
Qed.

(** X1. On a well-shaped board [applyMove] panics (index out of range)
    exactly when one of its four coordinates is outside 0..7. *)
Theorem applyMove_panics_iff_out_of_range (fromY fromX toY toX : Z) (g : Game) :
  wfBoard (board g) →
  applyMove fromY fromX toY toX g = None
  ↔ ¬ (inRange fromY fromX ∧ inRange toY toX).
Proof.
  intros Hwf. split.
  - intros Hnone [Hfrom Hto].
    destruct (applyMove_spec fromY fromX toY toX g Hwf Hfrom Hto)
      as (? & ? & g' & _ & _ & Hg' & _). congruence.
  - intros Hout. unfold applyMove.
    destruct (boardAt (board g) fromY fromX) as [piece|] eqn:Hp; [simpl|done].
    destruct (boardAt (board g) toY toX) as [target|] eqn:Ht; [|done].
    destruct Hout. split; by eapply boardAt_inRange.
Qed.

Lemma applyMove_panics_iff_out_of_range_witness :
  applyMove 6 4 8 4 NewGame = None ↔ ¬ (inRange 6 4 ∧ inRange 8 4).
Proof.
  apply (applyMove_panics_iff_out_of_range 6 4 8 4 NewGame). exact NewGame_wf.
Defined.

(** X2. A move between two different in-range squares carries the content of
    the source to the destination, leaves the source empty and every other
    square as it was, keeps the shape of the board, and touches neither the
    cursor, the selection, the legal-move set, the theme nor the cell sizes;
    no legality of the move is looked at. *)
Theorem applyMove_moves_piece (fromY fromX toY toX : Z) (g : Game) :
  wfBoard (board g) → inRange fromY fromX → inRange toY toX →
  (fromY, fromX) ≠ (toY, toX) →
  ∃ piece g',
    boardAt (board g) fromY fromX = Some piece ∧
    applyMove fromY fromX toY toX g = Some g' ∧
    wfBoard (board g') ∧
    boardAt (board g') toY toX = Some piece ∧
    boardAt (board g') fromY fromX = Some None ∧
    (∀ y x, (y, x) ≠ (fromY, fromX) → (y, x) ≠ (toY, toX) →
            boardAt (board g') y x = boardAt (board g) y x) ∧
    cursorX g' = cursorX g ∧ cursorY g' = cursorY g ∧
    selectedX g' = selectedX g ∧ selectedY g' = selectedY g ∧
    legalMoves g' = legalMoves g ∧
    currentThemeIndex g' = currentThemeIndex g ∧
    squareWidth g' = squareWidth g ∧ squareHeight g' = squareHeight g.
Proof.
  intros Hwf Hfrom Hto Hne.
  destruct (applyMove_spec fromY fromX toY toX g Hwf Hfrom Hto)
    as (piece & target & g' & Hp & _ & Hg' & Hwf' & Hat & _).
  exists piece, g'. split; [exact Hp|]. split; [exact Hg'|].
  split; [exact Hwf'|]. split.
  { rewrite Hat. rewrite decide_False by (intros [-> ->]; by apply Hne).
    by rewrite decide_True. }
  split; [rewrite Hat; by rewrite decide_True|]. split.
  { intros y x H1 H2. rewrite Hat.
    rewrite decide_False by (intros [-> ->]; by apply H1).
    by rewrite decide_False by (intros [-> ->]; by apply H2). }
  exact (applyMove_frame _ _ _ _ _ _ Hg').
Qed.

Lemma applyMove_moves_piece_witness :
  ∃ piece g',
    boardAt (board NewGame) 1 4 = Some piece ∧
    applyMove 1 4 3 4 NewGame = Some g' ∧
    wfBoard (board g') ∧
    boardAt (board g') 3 4 = Some piece ∧
    boardAt (board g') 1 4 = Some None ∧
    (∀ y x, (y, x) ≠ (1, 4) → (y, x) ≠ (3, 4) →
            boardAt (board g') y x = boardAt (board NewGame) y x) ∧
    cursorX g' = cursorX NewGame ∧ cursorY g' = cursorY NewGame ∧
    selectedX g' = selectedX NewGame ∧ selectedY g' = selectedY NewGame ∧
    legalMoves g' = legalMoves NewGame ∧
    currentThemeIndex g' = currentThemeIndex NewGame ∧
    squareWidth g' = squareWidth NewGame ∧
    squareHeight g' = squareHeight NewGame.
Proof.
  apply (applyMove_moves_piece 1 4 3 4 NewGame).
  - exact NewGame_wf.
  - unfold inRange. lia.
  - unfold inRange. lia.
  - discriminate.
Defined.

Lemma sum_list_with_agree {A} (f h : A → nat) (l : list A) :
  (∀ a, a ∈ l → f a = h a) → sum_list_with f l = sum_list_with h l.
Proof.
  induction l as [|a l IH]; intros Hfh; simpl; [done|].
  rewrite (Hfh a) by left. rewrite IH; [done|].
  intros a' Ha'. apply Hfh. by right.
Qed.

(** Two weights that differ at one element of a duplicate-free list. *)
Lemma sum_list_with_change {A} (f h : A → nat) (l : list A) (p : A) :
  NoDup l → p ∈ l → (∀ a, a ∈ l → a ≠ p → f a = h a) →
  (sum_list_with f l + h p = sum_list_with h l + f p)%nat.
Proof.
  induction l as [|a l IH]; intros Hnd Hp Hfh; [by apply elem_of_nil in Hp|].
  apply NoDup_cons in Hnd as [Ha Hnd]. simpl.
  apply elem_of_cons in Hp as [->|Hp].
  - rewrite (sum_list_with_agree f h l); [lia|].
    intros a' Ha'. apply Hfh; [by right|]. intros ->. contradiction.
  - assert (a ≠ p) as Hne by (intros ->; contradiction).
    rewrite (Hfh a) by (done || left).
    assert (sum_list_with f l + h p = sum_list_with h l + f p)%nat as IH'.
    { apply IH; [done..|]. intros a' Ha'. apply Hfh. by right. }
    lia.
Qed.

Lemma elem_of_squares (y x : Z) : (y, x) ∈ squares ↔ inRange y x.
Proof.
  unfold squares, inRange. rewrite list_elem_of_In, in_prod_iff.
  rewrite <- !list_elem_of_In, !elem_of_seqZ. lia.
Qed.

Lemma NoDup_squares : NoDup squares.
Proof. apply (bool_decide_unpack (NoDup squares)). vm_compute. exact I. Qed.

Lemma applyMove_pieceCount_eq (fromY fromX toY toX : Z) (g : Game) :
  wfBoard (board g) → inRange fromY fromX → inRange toY toX →
  ∃ g', applyMove fromY fromX toY toX g = Some g' ∧
        (pieceCount (board g') + occupied (board g) (toY, toX)
         = pieceCount (board g))%nat.
Proof.
  intros Hwf Hfrom Hto.
  destruct (applyMove_spec fromY fromX toY toX g Hwf Hfrom Hto)
    as (piece & target & g' & Hp & Ht & Hg' & _ & Hat & _).
  exists g'. split; [exact Hg'|].
  set (w := match piece with Some _ => 1%nat | None => 0%nat end).
  set (f0 := occupied (board g)).
  set (f1 := λ sq : Z * Z, if decide (sq = (toY, toX)) then w else f0 sq).
  set (f2 := occupied (board g')).
  assert (f0 (fromY, fromX) = w) as Hsrc.
  { unfold f0, occupied. simpl. by rewrite Hp. }
  assert (sum_list_with f1 squares + f0 (toY, toX)
          = sum_list_with f0 squares + f1 (toY, toX))%nat as H1.
  { symmetry. apply sum_list_with_change.
    - exact NoDup_squares.
    - by apply elem_of_squares.
    - intros a _ Ha. unfold f1. by rewrite decide_False. }
  assert (sum_list_with f2 squares + f1 (fromY, fromX)
          = sum_list_with f1 squares + f2 (fromY, fromX))%nat as H2.
  { apply sum_list_with_change.
    - exact NoDup_squares.
    - by apply elem_of_squares.
    - intros [y x] _ Ha. unfold f2, f1, f0, occupied. simpl.
      rewrite Hat. rewrite decide_False by (intros [-> ->]; by apply Ha).
      destruct (decide (y = toY ∧ x = toX)) as [[-> ->]|Hne].
      + rewrite decide_True by done. unfold w. by destruct piece.
      + rewrite decide_False by (intros [= -> ->]; by apply Hne). done. }
  assert (f1 (toY, toX) = w) as E1 by (unfold f1; by rewrite decide_True).
  assert (f1 (fromY, fromX) = w) as E2.
  { unfold f1. destruct (decide ((fromY, fromX) = (toY, toX))); done. }
  assert (f2 (fromY, fromX) = 0%nat) as E3.
  { unfold f2, occupied. simpl. rewrite Hat. by rewrite decide_True. }
  unfold pieceCount. fold f0 f2. lia.
Qed.

(** X3. [applyMove] removes exactly what stood on the destination: the number
    of pieces on the board drops by one when the destination was occupied and
    is unchanged otherwise, whatever the source holds. *)
Theorem applyMove_piece_count (fromY fromX toY toX : Z) (g : Game) :
  wfBoard (board g) → inRange fromY fromX → inRange toY toX →
  ∃ g', applyMove fromY fromX toY toX g = Some g' ∧
        (pieceCount (board g') + occupied (board g) (toY, toX)
         = pieceCount (board g))%nat.
Proof. apply applyMove_pieceCount_eq. Qed.

Lemma applyMove_piece_count_witness :
  ∃ g', applyMove 7 3 1 3 NewGame = Some g' ∧
        (pieceCount (board g') + occupied (board NewGame) (1, 3)%Z
         = pieceCount (board NewGame))%nat.
Proof.
  apply (applyMove_piece_count 7 3 1 3 NewGame).
  - exact NewGame_wf.
  - unfold inRange. lia.
  - unfold inRange. lia.
Defined.

(** ** The move generator: the remaining kinds, and what it leaves alone *)

Lemma movesOf_knight (b : Board) (y x : Z) (p : Piece) (ny nx : Z) :
  symbol p = pieces "white_knight" ∨ symbol p = pieces "black_knight" →
  movesOf b y x p ny nx ↔ onStep b y x knightOffsets (color p) ny nx.
Proof.
  intros Hk. unfold movesOf. cbv zeta.
  destruct Hk as [Hk|Hk]; rewrite Hk; eval_pieces;
    cbn [Z.eqb Pos.eqb orb]; reflexivity.
Qed.

Lemma movesOf_king (b : Board) (y x : Z) (p : Piece) (ny nx : Z) :
  symbol p = pieces "white_king" ∨ symbol p = pieces "black_king" →
  movesOf b y x p ny nx ↔ onStep b y x kingOffsets (color p) ny nx.
Proof.
  intros Hk. unfold movesOf. cbv zeta.
  destruct Hk as [Hk|Hk]; rewrite Hk; eval_pieces;
    cbn [Z.eqb Pos.eqb orb]; reflexivity.
Qed.

(** X4. For a knight on a well-shaped board the generated set is exactly the
    squares at one of the eight L-shaped offsets that are on the board and
    empty or held by another colour. *)
Theorem knight_destinations (g : Game) (y x : Z) (p : Piece) :
  wfBoard (board g) →
  boardAt (board g) y x = Some (Some p) →
  symbol p = pieces "white_knight" ∨ symbol p = pieces "black_knight" →
  ∃ g', calculateLegalMoves y x g = Some g' ∧
        g' = withLegalMoves (legalMoves g') g ∧
        legalSet g' (onStep (board g) y x knightOffsets (color p)).
Proof.
  intros Hwf Hp Hk.
  destruct (calculateLegalMoves_adds y x p g Hwf Hp) as (g' & Hg' & Hadds).
  exists g'. split; [exact Hg'|].
  apply adds_legalSet.
  - eapply adds_iff; [|exact Hadds].
    intros nx ny. by apply movesOf_knight.
  - intros ny nx H. by eapply onStep_sound.
Qed.

Lemma knight_destinations_witness :
  ∃ g', calculateLegalMoves 0 6 NewGame = Some g' ∧
        g' = withLegalMoves (legalMoves g') NewGame ∧
        legalSet g' (onStep (board NewGame) 0 6 knightOffsets "black").
Proof.
  apply (knight_destinations NewGame 0 6
           (mkPiece "black" (pieces "black_knight"))).
  - exact NewGame_wf.
  - reflexivity.
  - right. reflexivity.
Defined.

(** X5. For a king on a well-shaped board the generated set is exactly the
    adjacent squares that are on the board and empty or held by another
    colour; squares attacked by the opponent are not excluded. *)
Theorem king_destinations (g : Game) (y x : Z) (p : Piece) :
  wfBoard (board g) →
  boardAt (board g) y x = Some (Some p) →
  symbol p = pieces "white_king" ∨ symbol p = pieces "black_king" →
  ∃ g', calculateLegalMoves y x g = Some g' ∧
        g' = withLegalMoves (legalMoves g') g ∧
        legalSet g' (onStep (board g) y x kingOffsets (color p)).
Proof.
  intros Hwf Hp Hk.
  destruct (calculateLegalMoves_adds y x p g Hwf Hp) as (g' & Hg' & Hadds).
  exists g'. split; [exact Hg'|].
  apply adds_legalSet.
  - eapply adds_iff; [|exact Hadds].
    intros nx ny. by apply movesOf_king.
  - intros ny nx H. by eapply onStep_sound.
Qed.

Lemma king_destinations_witness :
  ∃ g', calculateLegalMoves 7 4 NewGame = Some g' ∧
        g' = withLegalMoves (legalMoves g') NewGame ∧
        legalSet g' (onStep (board NewGame) 7 4 kingOffsets "white").
Proof.
  apply (king_destinations NewGame 7 4 (mkPiece "white" (pieces "white_king"))).
  - exact NewGame_wf.
  - reflexivity.
  - left. reflexivity.
Defined.

(** [calculateLegalMoves] on an in-range square of a well-shaped board: it
    never panics and changes the legal-move set only. *)
Lemma calculateLegalMoves_total (y x : Z) (g : Game) :
  wfBoard (board g) → inRange y x →
  ∃ g', calculateLegalMoves y x g = Some g' ∧
        g' = withLegalMoves (legalMoves g') g ∧
        (boardAt (board g) y x = Some None → legalMoves g' = ∅).
Proof.
  intros Hwf Hsrc.
  destruct (boardAt_is_Some _ _ _ Hwf Hsrc) as [[p|] Hp].
  - destruct (calculateLegalMoves_adds y x p g Hwf Hp) as (g' & Hg' & [E _]).
    exists g'. split; [exact Hg'|]. split; [by rewrite E at 1|].
    intros Hnone. congruence.
  - exists (withLegalMoves ∅ g). split; [|split; [reflexivity|reflexivity]].
    unfold calculateLegalMoves. cbv zeta.
    change (board (withLegalMoves ∅ g)) with (board g). by rewrite Hp.
Qed.

(** X6. [calculateLegalMoves] starts from a fresh map: on a well-shaped board
    and an in-range square it never panics, its result does not depend on the
    legal-move set the game held before, nothing but that set is changed, and
    an empty square gives the empty set; on a square outside the board it
    panics. *)
Theorem calculateLegalMoves_resets (y x : Z) (g : Game) :
  wfBoard (board g) →
  (inRange y x →
   ∃ g', calculateLegalMoves y x g = Some g' ∧
         g' = withLegalMoves (legalMoves g') g ∧
         (∀ m, calculateLegalMoves y x (withLegalMoves m g) = Some g') ∧
         (boardAt (board g) y x = Some None → legalMoves g' = ∅)) ∧
  (¬ inRange y x → calculateLegalMoves y x g = None).
Proof.
  intros Hwf. split.
  - intros Hsrc.
    destruct (calculateLegalMoves_total y x g Hwf Hsrc) as (g' & Hg' & E & He).
    exists g'. split; [exact Hg'|]. split; [exact E|]. split; [|exact He].
    intros m. rewrite <- Hg'. reflexivity.
  - intros Hout. unfold calculateLegalMoves. cbv zeta.
    change (board (withLegalMoves ∅ g)) with (board g).
    by rewrite boardAt_None_out_of_range.
Qed.

Lemma calculateLegalMoves_resets_witness :
  (inRange 4 4 →
   ∃ g', calculateLegalMoves 4 4 NewGame = Some g' ∧
         g' = withLegalMoves (legalMoves g') NewGame ∧
         (∀ m, calculateLegalMoves 4 4 (withLegalMoves m NewGame) = Some g') ∧
         (boardAt (board NewGame) 4 4 = Some None → legalMoves g' = ∅)) ∧
  (¬ inRange 4 4 → calculateLegalMoves 4 4 NewGame = None).
Proof.
  apply (calculateLegalMoves_resets 4 4 NewGame). exact NewGame_wf.
Defined.

(** X7. The square a piece stands on is never among its destinations: the
    interface cannot produce a move from a square to itself. *)
Theorem source_is_no_destination (g : Game) (y x : Z) (p : Piece) :
  wfBoard (board g) →
  boardAt (board g) y x = Some (Some p) → wfPiece p →
  ∃ g', calculateLegalMoves y x g = Some g' ∧
        mapGet (legalMoves g') (key x y) = false.
Proof.
  intros Hwf Hp Hpiece.
  destruct (calculateLegalMoves_adds y x p g Hwf Hp) as (g' & Hg' & [_ Hk]).
  exists g'. split; [exact Hg'|].
  destruct (mapGet (legalMoves g') (key x y)) eqn:Hget; [exfalso|reflexivity].
  apply Hk in Hget as [Hold|(nx & ny & Hkey & Hmoves)].
  { simpl in Hold. by rewrite mapGet_empty in Hold. }
  destruct (movesOf_sound _ _ _ _ _ _ Hwf Hpiece Hmoves) as [[Hy Hx] Hcol].
  apply key_inj in Hkey as [-> ->]; [|exact Hx|exact Hy].
  by apply (Hcol p).
Qed.

Lemma source_is_no_destination_witness :
  ∃ g', calculateLegalMoves 7 3 NewGame = Some g' ∧
        mapGet (legalMoves g') (key 3 7) = false.
Proof.
  apply (source_is_no_destination NewGame 7 3
           (mkPiece "white" (pieces "white_queen"))).
  - exact NewGame_wf.
  - reflexivity.
  - exists "white", "queen". split; [left|]. split; [|reflexivity].
    unfold pieceKinds. right. left.
Defined.

(** X8. Reading the legal-move set after [addMove]: the key of an in-range
    square is shared with no other pair of integers, so exactly that square
    is added and every other square reads as before. *)
Theorem addMove_lookup (x y x' y' : Z) (c : string) (g : Game) :
  0 <= x < 8 → 0 <= y < 8 →
  mapGet (legalMoves (addMove x y c g)) (key x' y')
  = if decide (x' = x ∧ y' = y) then true
    else mapGet (legalMoves g) (key x' y').
Proof.
  intros Hx Hy. unfold addMove, mapGet. simpl.
  destruct (decide (x' = x ∧ y' = y)) as [[-> ->]|Hne].
  - by rewrite lookup_insert_eq.
  - rewrite lookup_insert_ne; [done|].
    intros Hkey. symmetry in Hkey. by apply key_inj in Hkey.
Qed.

Lemma addMove_lookup_witness :
  mapGet (legalMoves (addMove 4 5 "white" NewGame)) (key 45 (-1))
  = if decide (45 = 4 ∧ -1 = 5) then true
    else mapGet (legalMoves NewGame) (key 45 (-1)).
Proof. apply (addMove_lookup 4 5 45 (-1) "white" NewGame); lia. Defined.

(** ** The invariant of the game *)

Lemma NewGame_pieces (y x : Z) (p : Piece) :
  boardAt (board NewGame) y x = Some (Some p) → wfPiece p.
Proof.
  intros Hp.
  destruct (boardAt_inRange _ _ _ _ NewGame_wf Hp) as [Hy Hx].
  assert (y = 0 ∨ y = 1 ∨ y = 2 ∨ y = 3 ∨ y = 4 ∨ y = 5 ∨ y = 6 ∨ y = 7)
    as Hycases by lia.
  assert (x = 0 ∨ x = 1 ∨ x = 2 ∨ x = 3 ∨ x = 4 ∨ x = 5 ∨ x = 6 ∨ x = 7)
    as Hxcases by lia.
  clear Hy Hx.
  destruct_or!; subst y x; vm_compute in Hp;
    first [discriminate Hp | injection Hp as <-; pick_piece].
Qed.

Lemma NewGame_inv : gameInv NewGame.
Proof.
  split; [exact NewGame_wf|].
  split; [exact NewGame_pieces|].
  split.
  { assert (pieceCount (board NewGame) = 32%nat) as -> by (vm_compute; reflexivity).
    lia. }
  split; [left; reflexivity|].
  split; [unfold inRange; simpl; lia|].
  split; [left; reflexivity|].
  split; [reflexivity|].
  split.
  { intros k Hk. simpl in Hk. by rewrite mapGet_empty in Hk. }
  simpl. lia.
Qed.

Lemma otherPlayer_cases (p : string) :
  otherPlayer p = "white" ∨ otherPlayer p = "black".
Proof. unfold otherPlayer. destruct (String.eqb p "white"); auto. Qed.

(** [applyMove] on in-range squares keeps the invariant and never clears
    [gameOver]. *)
Lemma applyMove_inv (fromY fromX toY toX : Z) (g : Game) :
  gameInv g → inRange fromY fromX → inRange toY toX →
  ∃ g', applyMove fromY fromX toY toX g = Some g' ∧ gameInv g' ∧
        (gameOver g = true → gameOver g' = true) ∧
        selectedX g' = selectedX g ∧ selectedY g' = selectedY g ∧
        legalMoves g' = legalMoves g.
Proof.
  intros (Hwf & Hpieces & Hcount & Hplayer & Hcur & Hsel & Hselempty & Hkeys
          & Htheme & Hw & Hh) Hfrom Hto.
  destruct (applyMove_spec fromY fromX toY toX g Hwf Hfrom Hto)
    as (piece & target & g' & Hp & Ht & Hg' & Hwf' & Hat & Hover & Hpl & _).
  destruct (applyMove_frame _ _ _ _ _ _ Hg')
    as (Ecx & Ecy & Esx & Esy & Elm & Eth & Ew & Eh).
  destruct (applyMove_pieceCount_eq fromY fromX toY toX g Hwf Hfrom Hto)
    as (g'' & Hg'' & Hcnt).
  rewrite Hg' in Hg''. injection Hg'' as <-.
  exists g'. split; [exact Hg'|]. split.
  { split; [exact Hwf'|]. split.
    { intros y x p. rewrite Hat.
      destruct (decide (y = fromY ∧ x = fromX)); [discriminate|].
      destruct (decide (y = toY ∧ x = toX)).
      - intros [= ->]. by eapply Hpieces.
      - apply Hpieces. }
    split; [lia|]. split; [rewrite Hpl; apply otherPlayer_cases|].
    rewrite Ecx, Ecy, Esx, Esy, Elm, Eth, Ew, Eh. tauto. }
  split.
  { intros Htrue. rewrite Hover, Htrue. reflexivity. }
  tauto.
Qed.

Lemma fmtC_nonempty (r : Z) : ∃ c s, fmtC r = String c s.
Proof.
  unfold fmtC. cbv zeta.
  repeat match goal with
         | |- context [if ?b then _ else _] => destruct b
         end; eauto.
Qed.

Lemma encodeMove_nonempty (fromY fromX toY toX : Z) :
  encodeMove fromY fromX toY toX ≠ "".
Proof.
  unfold encodeMove.
  destruct (fmtC_nonempty (toRune (97 + toRune fromX))) as (c & s & ->).
  cbv [String.append]. discriminate.
Qed.

(** The notation written for an in-range move is read back as that move. *)
Lemma parseMove_encodeMove (fromRow fromCol toRow toCol : Z) :
  inRange fromRow fromCol → inRange toRow toCol →
  parseMove (encodeMove fromRow fromCol toRow toCol)
  = Some (fromRow, fromCol, toRow, toCol, true).
Proof.
  intros [Hfr Hfc] [Htr Htc]. unfold encodeMove.
  rewrite !fmtC_file, !pretty_rank by done. cbv [String.append].
  rewrite parseMove_four. cbv zeta.
  rewrite !byteVal_byte by lia. unfold byteSub.
  replace (97 + fromCol - 97) with fromCol by lia.
  replace (97 + toCol - 97) with toCol by lia.
  replace (56 - fromRow - 48) with (8 - fromRow) by lia.
  replace (56 - toRow - 48) with (8 - toRow) by lia.
  rewrite !Z.mod_small by lia.
  replace (8 - (8 - fromRow)) with fromRow by lia.
  replace (8 - (8 - toRow)) with toRow by lia.
  assert ((fromCol <? 0) = false ∧ (fromCol >? 7) = false ∧
          (fromRow <? 0) = false ∧ (fromRow >? 7) = false ∧
          (toCol <? 0) = false ∧ (toCol >? 7) = false ∧
          (toRow <? 0) = false ∧ (toRow >? 7) = false)
    as (-> & -> & -> & -> & -> & -> & -> & ->).
  { rewrite !Z.gtb_ltb, !Z.ltb_ge. lia. }
  reflexivity.
Qed.

(** Every branch of [handleMouseClick] on a game that satisfies the
    invariant: no panic, the invariant again, a move string that is empty or
    well formed, and [gameOver] never cleared. *)
Lemma handleMouseClick_inv (playerColor : string) (g : Game) :
  gameInv g →
  ∃ g' m, handleMouseClick playerColor g = Some (g', m) ∧ gameInv g' ∧
          (m = "" ∨ wellFormedLine m) ∧
          (gameOver g = true → gameOver g' = true).
Proof.
  intros Hinv.
  pose proof Hinv as (Hwf & Hpieces & Hcount & Hplayer & Hcur & Hsel
                      & Hselempty & Hkeys & Htheme & Hw & Hh).
  unfold handleMouseClick. cbv zeta.
  destruct (negb (String.eqb (currentPlayer g) playerColor)).
  { eexists _, _. split; [reflexivity|]. split; [exact Hinv|].
    split; [by left|]. simpl. tauto. }
  destruct (negb (selectedX g =? -1)) eqn:Hs.
  - apply negb_true_iff, Z.eqb_neq in Hs.
    destruct Hsel as [?|Hsel]; [contradiction|].
    destruct (mapGet (legalMoves g) (key (cursorX g) (cursorY g))).
    + destruct (applyMove_inv (selectedY g) (selectedX g) (cursorY g)
                  (cursorX g) g Hinv Hsel Hcur)
        as (g1 & Hg1 & Hinv1 & Hover1 & _).
      rewrite Hg1. simpl. eexists _, _. split; [reflexivity|].
      destruct Hinv1 as (Hwf1 & Hpieces1 & Hcount1 & Hplayer1 & Hcur1 & _
                         & _ & _ & Htheme1 & Hw1 & Hh1).
      split.
      { repeat (split; [assumption|]). simpl.
        split; [by left|]. split; [reflexivity|]. split; [|tauto].
        intros k Hk. by rewrite mapGet_empty in Hk. }
      split; [|exact Hover1].
      right. exists (selectedY g), (selectedX g), (cursorY g), (cursorX g).
      by apply parseMove_encodeMove.
    + eexists _, _. split; [reflexivity|]. split; [|split; [by left|simpl; tauto]].
      repeat (split; [assumption|]). simpl.
      split; [by left|]. split; [reflexivity|]. split; [|tauto].
      intros k Hk. by rewrite mapGet_empty in Hk.
  - apply negb_false_iff, Z.eqb_eq in Hs.
    destruct (boardAt_is_Some _ _ _ Hwf Hcur) as [[p|] Hp]; rewrite Hp; simpl.
    + destruct (String.eqb (color p) (currentPlayer g)).
      * set (g0 := withMessage "Piece selected. Click a destination square."
                     (withSelected (cursorX g) (cursorY g) g)).
        destruct (calculateLegalMoves_adds (cursorY g) (cursorX g) p g0 Hwf Hp)
          as (g1 & Hg1 & [E Hk]).
        rewrite Hg1. simpl. eexists _, _. split; [reflexivity|].
        split; [|split; [by left|by rewrite E]].
        rewrite E. repeat (split; [assumption|]). simpl.
        split; [by right|]. split.
        { intros Hm1. destruct Hcur as [_ Hcx]. lia. }
        split; [|tauto].
        intros k [Hold|(nx & ny & -> & Hmoves)]%Hk.
        { simpl in Hold. by rewrite mapGet_empty in Hold. }
        exists nx, ny. split; [reflexivity|].
        by destruct (movesOf_sound _ _ _ _ _ _ Hwf (Hpieces _ _ _ Hp) Hmoves).
      * eexists _, _. split; [reflexivity|]. split; [exact Hinv|].
        split; [by left|simpl; tauto].
    + eexists _, _. split; [reflexivity|]. split; [exact Hinv|].
      split; [by left|simpl; tauto].
Qed.

Lemma clamp07_range (v : Z) : 0 <= clamp07 v < 8.
Proof.
  unfold clamp07. cbv zeta.
  destruct (Z.ltb_spec v 0); rewrite Z.gtb_ltb;
    [destruct (Z.ltb_spec 7 0)|destruct (Z.ltb_spec 7 v)]; lia.
Qed.

(** One event of the input loop on a game that satisfies the invariant. *)
Lemma handleEvent_inv (player : string) (ev : Event) (g : Game) :
  gameInv g → ev ≠ EventError →
  ∃ g' out ret, handleEvent player ev g = Some (g', out, ret) ∧ gameInv g' ∧
                Forall wellFormedLine out ∧
                (gameOver g = true → gameOver g' = true).
Proof.
  intros Hinv Hev.
  pose proof Hinv as (Hwf & Hpieces & Hcount & Hplayer & Hcur & Hsel
                      & Hselempty & Hkeys & Htheme & Hw & Hh).
  destruct ev as [k ch|k mx my| |]; [| |contradiction|].
  - unfold handleEvent. destruct k.
    + eexists _, _, _. split; [reflexivity|]. split; [exact Hinv|].
      split; [constructor|reflexivity].
    + destruct ((ch =? 99) || (ch =? 67)).
      * eexists _, _, _. split; [reflexivity|].
        split; [|split; [constructor|simpl; tauto]].
        repeat (split; [assumption|]). simpl.
        split; [|tauto].
        change (Z.of_nat (length themes)) with 5 in *.
        pose proof (Z.rem_bound_pos (currentThemeIndex g + 1) 5). lia.
      * eexists _, _, _. split; [reflexivity|]. split; [exact Hinv|].
        split; [constructor|tauto].
    + destruct ((ch =? 99) || (ch =? 67)).
      * eexists _, _, _. split; [reflexivity|].
        split; [|split; [constructor|simpl; tauto]].
        repeat (split; [assumption|]). simpl.
        split; [|tauto].
        change (Z.of_nat (length themes)) with 5 in *.
        pose proof (Z.rem_bound_pos (currentThemeIndex g + 1) 5). lia.
      * eexists _, _, _. split; [reflexivity|]. split; [exact Hinv|].
        split; [constructor|tauto].
  - unfold handleEvent, intDiv. rewrite Hw, Hh. simpl.
    set (g0 := withCursor (clamp07 (mx ÷ 8)) (clamp07 (my ÷ 4)) g).
    assert (gameInv g0) as Hinv0.
    { repeat (split; [assumption|]). simpl.
      split; [|tauto].
      split; apply clamp07_range. }
    destruct k.
    + eexists _, _, _. split; [reflexivity|]. split; [exact Hinv0|].
      split; [constructor|simpl; tauto].
    + destruct (handleMouseClick_inv player g0 Hinv0)
        as (g' & m & Hg' & Hinv' & Hm & Hover).
      rewrite Hg'. simpl. eexists _, _, _. split; [reflexivity|].
      split; [exact Hinv'|]. split; [|exact Hover].
      destruct Hm as [->|Hm]; [constructor|].
      destruct (String.eqb m ""); [constructor|].
      constructor; [exact Hm|constructor].
    + eexists _, _, _. split; [reflexivity|]. split; [exact Hinv0|].
      split; [constructor|simpl; tauto].
  - eexists _, _, _. split; [reflexivity|]. split; [exact Hinv|].
    split; [constructor|tauto].
Qed.

(** One line read by the reader goroutine, whatever it contains. *)
Lemma readerStep_inv (TrimSpace : string → string) (l : string) (g : Game) :
  gameInv g →
  ∃ g', readerStep TrimSpace l g = Some g' ∧ gameInv g' ∧
        (gameOver g = true → gameOver g' = true).
Proof.
  intros Hinv. unfold readerStep. rewrite parseMove_notationDecode.
  destruct (notationDecode (TrimSpace l)) as [[[[fr fc] tr] tc]|] eqn:Hd.
  - apply notationDecode_Some in Hd as (_ & Hfr & Hfc & Htr & Htc).
    simpl.
    destruct (applyMove_inv fr fc tr tc g Hinv) as (g' & Hg' & Hinv' & Ho & _);
      [unfold inRange; lia..|].
    by exists g'.
  - simpl.
    destruct (applyMove_inv 0 0 0 0 g Hinv) as (g' & Hg' & Hinv' & Ho & _);
      [unfold inRange; lia..|].
    by exists g'.
Qed.

(** One step of [play] keeps the invariant and never clears [gameOver]. *)
Lemma step_inv (TrimSpace : string → string) (player : string) (s s' : Sys)
    (i : Input) :
  sysInv s → step TrimSpace player s i = Some s' →
  sysInv s' ∧ (gameOver (game s) = true → gameOver (game s') = true).
Proof.
  intros [Hinv Hsent]. unfold step.
  destruct (mainLoop s) eqn:Hmain; destruct i as [|ev|l|];
    try discriminate.
  - intros [= <-]. simpl. split; [split; [exact Hinv|exact Hsent]|tauto].
  - destruct (reader s); [|discriminate].
    destruct (readerStep_inv TrimSpace l (game s) Hinv)
      as (g' & -> & Hinv' & Hover).
    simpl. intros [= <-]. simpl.
    split; [split; [exact Hinv'|exact Hsent]|exact Hover].
  - destruct (reader s); [|discriminate].
    intros [= <-]. simpl. split; [split; [exact Hinv|exact Hsent]|tauto].
  - destruct ev as [k ch|k mx my| |]; [| |discriminate|].
    + destruct (handleEvent_inv player (EventKey k ch) (game s) Hinv)
        as (g' & out & ret & -> & Hinv' & Hout & Hover); [discriminate|].
      simpl. intros [= <-]. simpl. split; [|exact Hover].
      split; [exact Hinv'|]. by apply Forall_app.
    + destruct (handleEvent_inv player (EventMouse k mx my) (game s) Hinv)
        as (g' & out & ret & -> & Hinv' & Hout & Hover); [discriminate|].
      simpl. intros [= <-]. simpl. split; [|exact Hover].
      split; [exact Hinv'|]. by apply Forall_app.
    + destruct (handleEvent_inv player EventOther (game s) Hinv)
        as (g' & out & ret & -> & Hinv' & Hout & Hover); [discriminate|].
      simpl. intros [= <-]. simpl. split; [|exact Hover].
      split; [exact Hinv'|]. by apply Forall_app.
  - destruct (reader s); [|discriminate].
    destruct (readerStep_inv TrimSpace l (game s) Hinv)
      as (g' & -> & Hinv' & Hover).
    simpl. intros [= <-]. simpl.
    split; [split; [exact Hinv'|exact Hsent]|exact Hover].
  - destruct (reader s); [|discriminate].
    intros [= <-]. simpl. split; [split; [exact Hinv|exact Hsent]|tauto].
Qed.

(** From a state that satisfies the invariant, every input that can happen
    is handled, except the error event of the terminal. *)
Lemma step_progress (TrimSpace : string → string) (player : string) (s : Sys)
    (i : Input) :
  sysInv s → enabled s i = true → i ≠ Local EventError →
  is_Some (step TrimSpace player s i).
Proof.
  intros [Hinv Hsent]. unfold enabled, step.
  destruct (mainLoop s) eqn:Hmain; destruct i as [|ev|l|];
    try discriminate; intros Hen Herr.
  - by eexists.
  - destruct (reader s); [|discriminate].
    destruct (readerStep_inv TrimSpace l (game s) Hinv) as (g' & -> & _).
    by eexists.
  - destruct (reader s); [|discriminate]. by eexists.
  - destruct ev as [k ch|k mx my| |]; [| |contradiction|].
    + destruct (handleEvent_inv player (EventKey k ch) (game s) Hinv)
        as (g' & out & ret & -> & _); [discriminate|]. by eexists.
    + destruct (handleEvent_inv player (EventMouse k mx my) (game s) Hinv)
        as (g' & out & ret & -> & _); [discriminate|]. by eexists.
    + destruct (handleEvent_inv player EventOther (game s) Hinv)
        as (g' & out & ret & -> & _); [discriminate|]. by eexists.
  - destruct (reader s); [|discriminate].
    destruct (readerStep_inv TrimSpace l (game s) Hinv) as (g' & -> & _).
    by eexists.
  - destruct (reader s); [|discriminate]. by eexists.
Qed.

Lemma initial_inv : sysInv initial.
Proof. split; [exact NewGame_inv|constructor]. Qed.

Lemma run_inv (TrimSpace : string → string) (player : string)
    (inputs : list Input) (s : Sys) (trace : list Sys) :
  sysInv s → run TrimSpace player s inputs = Some trace →
  Forall sysInv trace ∧
  (∀ s', last (s :: trace) = Some s' → sysInv s').
Proof.
  revert s trace. induction inputs as [|i inputs IH]; intros s trace Hinv.
  - intros [= <-]. split; [constructor|]. by intros s' [= <-].
  - cbn [run]. destruct (step TrimSpace player s i) as [s1|] eqn:Hstep;
      [simpl|discriminate].
    destruct (run TrimSpace player s1 inputs) as [trace1|] eqn:Hrun;
      [simpl|discriminate].
    intros [= <-].
    destruct (step_inv _ _ _ _ _ Hinv Hstep) as [Hinv1 _].
    destruct (IH s1 trace1 Hinv1 Hrun) as [Hall Hlast].
    split; [by constructor|].
    intros s'. rewrite last_cons_cons. apply Hlast.
Qed.

(** ** handleMouseClick: the two phases of a move *)

Lemma movesOf_inRange (b : Board) (y x : Z) (p : Piece) (ny nx : Z) :
  wfBoard b → movesOf b y x p ny nx → inRange ny nx.
Proof.
  intros Hwf. unfold movesOf. cbv zeta.
  repeat match goal with
         | |- context [if ?c then _ else _] => destruct c
         end;
    first [ intros H; exact (proj1 (pawnReach_sound _ _ _ _ _ _ Hwf H))
          | intros (dy & dx & _ & H); exact (proj1 (onRay_sound _ _ _ _ _ _ _ _ Hwf H))
          | intros H; exact (proj1 (onStep_sound _ _ _ _ _ _ _ Hwf H))
          | intros [] ].
Qed.

(** X9. First phase: with nothing selected, a click by the player to move on
    one of that player's pieces selects the square under the cursor and stores
    exactly the destinations of that piece; the board, the player and the
    flag are untouched and nothing is sent. *)
Theorem handleMouseClick_selects (playerColor : string) (g : Game) (p : Piece) :
  wfBoard (board g) →
  currentPlayer g = playerColor → selectedX g = -1 →
  boardAt (board g) (cursorY g) (cursorX g) = Some (Some p) →
  color p = currentPlayer g →
  ∃ g', handleMouseClick playerColor g = Some (g', "") ∧
        g' = withLegalMoves (legalMoves g')
               (withMessage "Piece selected. Click a destination square."
                  (withSelected (cursorX g) (cursorY g) g)) ∧
        legalSet g' (movesOf (board g) (cursorY g) (cursorX g) p).
Proof.
  intros Hwf Hturn Hsel Hp Hcol. unfold handleMouseClick. cbv zeta.
  rewrite Hturn, String.eqb_refl, Hsel. simpl. rewrite Hp. simpl.
  rewrite Hcol, Hturn, String.eqb_refl.
  set (g0 := withMessage "Piece selected. Click a destination square."
               (withSelected (cursorX g) (cursorY g) g)).
  destruct (calculateLegalMoves_adds (cursorY g) (cursorX g) p g0 Hwf Hp)
    as (g1 & Hg1 & Hadds).
  rewrite Hg1. simpl. exists g1. split; [reflexivity|].
  apply (adds_legalSet g0 g1).
  - exact Hadds.
  - intros ny nx. by apply movesOf_inRange.
Qed.

Lemma handleMouseClick_selects_witness :
  ∃ g', handleMouseClick "white" (withCursor 4 6 NewGame) = Some (g', "") ∧
        g' = withLegalMoves (legalMoves g')
               (withMessage "Piece selected. Click a destination square."
                  (withSelected 4 6 (withCursor 4 6 NewGame))) ∧
        legalSet g'
          (movesOf (board NewGame) 6 4 (mkPiece "white" (pieces "white_pawn"))).
Proof.
  apply (handleMouseClick_selects "white" (withCursor 4 6 NewGame)
           (mkPiece "white" (pieces "white_pawn"))).
  - exact NewGame_wf.
  - reflexivity.
  - reflexivity.
  - reflexivity.
  - reflexivity.
Defined.

(** The outcome of [applyMove] on the board, the player and the flag depends
    on the board and the player only. *)
Lemma applyMove_on_peer (fromY fromX toY toX : Z) (g g' h : Game) :
  applyMove fromY fromX toY toX g = Some g' →
  board h = board g → currentPlayer h = currentPlayer g →
  ∃ h', applyMove fromY fromX toY toX h = Some h' ∧
        board h' = board g' ∧ currentPlayer h' = currentPlayer g' ∧
        (gameOver h = gameOver g → gameOver h' = gameOver g').
Proof.
  intros Hg Eb Ec. revert Hg. unfold applyMove. rewrite Eb.
  destruct (boardAt (board g) fromY fromX) as [piece|]; [simpl|discriminate].
  destruct (boardAt (board g) toY toX) as [target|]; [simpl|discriminate].
  destruct target as [t|];
    [destruct ((symbol t =? pieces "white_king")
               || (symbol t =? pieces "black_king"))|];
    cbn [board currentPlayer withMessage withGameOver]; rewrite Eb, Ec;
    (destruct (boardSet (board g) toY toX piece) as [b1|];
       [simpl|discriminate]);
    (destruct (boardSet b1 fromY fromX None) as [b2|]; [simpl|discriminate]);
    destruct (String.eqb (currentPlayer g) "white");
    intros [= <-]; eexists; (split; [reflexivity|]); simpl; auto.
Qed.

(** X10. Second phase and synchronisation: with a square selected, a click on
    a legal destination applies the move, clears the selection and the
    legal-move set, and returns the notation of the move; a peer whose board
    and player agree with the local ones and who reads that notation ends
    with the same board and the same player (and the same flag, if the flags
    agreed). *)
Theorem local_move_replayed_by_peer (TrimSpace : string → string)
    (playerColor : string) (g h : Game) (line : string) :
  wfBoard (board g) →
  inRange (cursorY g) (cursorX g) → inRange (selectedY g) (selectedX g) →
  currentPlayer g = playerColor →
  mapGet (legalMoves g) (key (cursorX g) (cursorY g)) = true →
  board h = board g → currentPlayer h = currentPlayer g →
  TrimSpace line
  = encodeMove (selectedY g) (selectedX g) (cursorY g) (cursorX g) →
  ∃ g' h',
    handleMouseClick playerColor g
    = Some (g', encodeMove (selectedY g) (selectedX g) (cursorY g) (cursorX g)) ∧
    readerStep TrimSpace line h = Some h' ∧
    board h' = board g' ∧ currentPlayer h' = currentPlayer g' ∧
    (gameOver h = gameOver g → gameOver h' = gameOver g') ∧
    selectedX g' = -1 ∧ selectedY g' = -1 ∧ legalMoves g' = ∅.
Proof.
  intros Hwf Hcur Hsel Hturn Hlegal Eb Ec Hline.
  destruct (applyMove_spec (selectedY g) (selectedX g) (cursorY g) (cursorX g)
              g Hwf Hsel Hcur) as (? & ? & g1 & _ & _ & Hg1 & _).
  destruct (applyMove_on_peer _ _ _ _ _ _ h Hg1 Eb Ec)
    as (h' & Hh' & Eb' & Ec' & Eo').
  eexists _, h'. split.
  { unfold handleMouseClick. cbv zeta.
    rewrite Hturn, String.eqb_refl. simpl.
    assert ((selectedX g =? -1) = false) as ->
      by (apply Z.eqb_neq; destruct Hsel; lia).
    simpl. rewrite Hlegal, Hg1. reflexivity. }
  split.
  { unfold readerStep. rewrite Hline, parseMove_encodeMove by done.
    exact Hh'. }
  simpl. repeat split; assumption || reflexivity.
Qed.

Lemma local_move_replayed_by_peer_witness :
  ∃ g' h',
    handleMouseClick "white"
      (withLegalMoves (<[key 4 4 := true]> ∅)
         (withSelected 4 6 (withCursor 4 4 NewGame)))
    = Some (g', encodeMove 6 4 4 4) ∧
    readerStep (λ l, l) "e2e4" NewGame = Some h' ∧
    board h' = board g' ∧ currentPlayer h' = currentPlayer g' ∧
    (gameOver NewGame = gameOver NewGame → gameOver h' = gameOver g') ∧
    selectedX g' = -1 ∧ selectedY g' = -1 ∧ legalMoves g' = ∅.
Proof.
  apply (local_move_replayed_by_peer (λ l, l) "white"
           (withLegalMoves (<[key 4 4 := true]> ∅)
              (withSelected 4 6 (withCursor 4 4 NewGame)))
           NewGame "e2e4").
  - exact NewGame_wf.
  - unfold inRange. simpl. lia.
  - unfold inRange. simpl. lia.
  - reflexivity.
  - vm_compute. reflexivity.
  - reflexivity.
  - reflexivity.
  - reflexivity.
Defined.

(** X11. Whenever [handleMouseClick] returns the empty string, the board, the
    player and the flag are as before: every change of the position made by a
    click comes with a move string to send. *)
Theorem handleMouseClick_silent_keeps_position (playerColor : string)
    (g g' : Game) :
  wfBoard (board g) → inRange (cursorY g) (cursorX g) →
  handleMouseClick playerColor g = Some (g', "") →
  board g' = board g ∧ currentPlayer g' = currentPlayer g ∧
  gameOver g' = gameOver g.
Proof.
  intros Hwf Hcur. unfold handleMouseClick. cbv zeta.
  destruct (negb (String.eqb (currentPlayer g) playerColor)).
  { intros [= <-]. repeat split. }
  destruct (negb (selectedX g =? -1)).
  - destruct (mapGet (legalMoves g) (key (cursorX g) (cursorY g))).
    + destruct (applyMove (selectedY g) (selectedX g) (cursorY g) (cursorX g) g)
        as [g1|]; [simpl|discriminate].
      intros [= _ Hm]. by apply encodeMove_nonempty in Hm.
    + intros [= <-]. repeat split.
  - destruct (boardAt_is_Some _ _ _ Hwf Hcur) as [[p|] Hp]; rewrite Hp; simpl.
    + destruct (String.eqb (color p) (currentPlayer g)).
      * set (g0 := withMessage "Piece selected. Click a destination square."
                     (withSelected (cursorX g) (cursorY g) g)).
        destruct (calculateLegalMoves_total (cursorY g) (cursorX g) g0 Hwf Hcur)
          as (g1 & Hg1 & E & _).
        rewrite Hg1. simpl. intros [= <-]. rewrite E. repeat split.
      * intros [= <-]. repeat split.
    + intros [= <-]. repeat split.
Qed.

Lemma handleMouseClick_silent_keeps_position_witness :
  board (withMessage "Select one of your own pieces." NewGame) = board NewGame ∧
  currentPlayer (withMessage "Select one of your own pieces." NewGame)
  = currentPlayer NewGame ∧
  gameOver (withMessage "Select one of your own pieces." NewGame)
  = gameOver NewGame.
Proof.
  apply (handleMouseClick_silent_keeps_position "white" NewGame).
  - exact NewGame_wf.
  - unfold inRange. simpl. lia.
  - reflexivity.
Defined.

(** ** play: events, the reader and the reachable states *)



Lemma clamp07_id (v : Z) : 0 <= v < 8 → clamp07 v = v.
Proof.
  intros Hv. unfold clamp07. cbv zeta.
  destruct (Z.ltb_spec v 0); [lia|]. rewrite Z.gtb_ltb.
  destruct (Z.ltb_spec 7 v); [lia|]. reflexivity.
Qed.

Lemma cell_to_square (x w j : Z) :
  0 < w → 0 <= x → 0 <= j < w → intDiv (x * w + j) w = Some x.
Proof.
  intros Hw Hx Hj. unfold intDiv.
  destruct (Z.eqb_spec w 0); [lia|]. f_equal.
  rewrite Z.quot_div_nonneg by nia.
  rewrite Z.div_add_l by lia. rewrite Z.div_small by lia. lia.
Qed.

(** X13. The click mapping inverts the drawing: a mouse event on any screen
    cell that [drawBoard] paints for the board square in column [x] and row
    [y] puts the cursor on that square, and a left click is handled there. *)
Theorem click_on_painted_cell (player : string) (g : Game) (x y px py : Z)
    (k : Key) :
  0 < squareWidth g → 0 < squareHeight g → inRange y x →
  (px, py) ∈ squareCells g x y →
  handleEvent player (EventMouse k px py) g
  = match k with
    | MouseLeft =>
        '(g', moveStr) ← handleMouseClick player (withCursor x y g);
        Some (g', if String.eqb moveStr "" then [] else [moveStr], false)
    | _ => Some (withCursor x y g, [], false)
    end.
Proof.
  intros Hw Hh [Hy Hx] Hcell. unfold squareCells in Hcell.
  apply list_elem_of_bind in Hcell as (i & Hcell & Hi%elem_of_seqZ).
  apply list_elem_of_bind in Hcell as (j & Hcell & Hj%elem_of_seqZ).
  apply list_elem_of_singleton in Hcell. injection Hcell as -> ->.
  unfold handleEvent.
  rewrite (cell_to_square x (squareWidth g) j) by lia.
  rewrite (cell_to_square y (squareHeight g) i) by lia.
  simpl. rewrite !clamp07_id by lia. reflexivity.
Qed.

Lemma click_on_painted_cell_witness :
  handleEvent "white" (EventMouse KeyOther 39 27) NewGame
  = Some (withCursor 4 6 NewGame, [], false).
Proof.
  apply (click_on_painted_cell "white" NewGame 4 6 39 27 KeyOther).
  - simpl. lia.
  - simpl. lia.
  - unfold inRange. lia.
  - vm_compute. do 31 right. left.
Defined.

(** X14. Wherever the pointer is (pixel coordinates negative or beyond the
    board included), a mouse event that is not a left click leaves the cursor
    on a square of the board and changes nothing else; with a zero cell width
    or height the division panics. *)
Theorem mouse_cursor_clamped (player : string) (k : Key) (mouseX mouseY : Z)
    (g : Game) :
  (squareWidth g ≠ 0 → squareHeight g ≠ 0 → k ≠ MouseLeft →
   ∃ cx cy, handleEvent player (EventMouse k mouseX mouseY) g
            = Some (withCursor cx cy g, [], false) ∧ inRange cy cx) ∧
  (squareWidth g = 0 ∨ squareHeight g = 0 →
   handleEvent player (EventMouse k mouseX mouseY) g = None).
Proof.
  unfold handleEvent, intDiv. split.
  - intros Hw Hh Hk.
    destruct (Z.eqb_spec (squareWidth g) 0); [contradiction|].
    destruct (Z.eqb_spec (squareHeight g) 0); [contradiction|].
    simpl. eexists _, _.
    split; [destruct k; [reflexivity|contradiction|reflexivity]|].
    split; apply clamp07_range.
  - intros [Hw|Hh].
    + rewrite Hw. reflexivity.
    + rewrite Hh. simpl. by destruct (squareWidth g =? 0).
Qed.

Lemma mouse_cursor_clamped_witness :
  (∃ cx cy, handleEvent "white" (EventMouse KeyOther (-5) 4000) NewGame
            = Some (withCursor cx cy NewGame, [], false) ∧ inRange cy cx) ∧
  handleEvent "white" (EventMouse KeyOther 3 3)
    (mkGame (board NewGame) "white" false 0 0 (-1) (-1) "" ∅ 0 0 4) = None.
Proof.
  split.
  - apply (mouse_cursor_clamped "white" KeyOther (-5) 4000 NewGame);
      simpl; discriminate.
  - apply (mouse_cursor_clamped "white" KeyOther 3 3
             (mkGame (board NewGame) "white" false 0 0 (-1) (-1) "" ∅ 0 0 4)).
    left. reflexivity.
Defined.

(** X15. A line that is not a well-formed move is not dropped by the reader:
    whatever stands on square (0,0) is removed from the board (the game even
    ends if it was a king), every other square is untouched, and the turn
    passes. *)
Theorem malformed_line_erases_corner (TrimSpace : string → string)
    (line : string) (g : Game) :
  wfBoard (board g) → notationDecode (TrimSpace line) = None →
  ∃ target g',
    boardAt (board g) 0 0 = Some target ∧
    readerStep TrimSpace line g = Some g' ∧
    boardAt (board g') 0 0 = Some None ∧
    (∀ y x, (y, x) ≠ (0, 0) →
            boardAt (board g') y x = boardAt (board g) y x) ∧
    currentPlayer g' = otherPlayer (currentPlayer g) ∧
    gameOver g' = gameOver g || holdsKing target.
Proof.
  intros Hwf Hbad.
  assert (inRange 0 0) as H0 by (unfold inRange; lia).
  destruct (applyMove_spec 0 0 0 0 g Hwf H0 H0)
    as (piece & target & g' & _ & Ht & Hg' & _ & Hat & Hover & Hpl & _).
  exists target, g'. split; [exact Ht|]. split.
  { unfold readerStep. rewrite parseMove_notationDecode, Hbad. exact Hg'. }
  split; [rewrite Hat; by rewrite decide_True|]. split.
  { intros y x Hne. rewrite Hat.
    by rewrite !decide_False by (intros [-> ->]; by apply Hne). }
  split; [exact Hpl|exact Hover].
Qed.

Lemma malformed_line_erases_corner_witness :
  ∃ target g',
    boardAt (board NewGame) 0 0 = Some target ∧
    readerStep (λ l, l) "resign" NewGame = Some g' ∧
    boardAt (board g') 0 0 = Some None ∧
    (∀ y x, (y, x) ≠ (0, 0) →
            boardAt (board g') y x = boardAt (board NewGame) y x) ∧
    currentPlayer g' = otherPlayer (currentPlayer NewGame) ∧
    gameOver g' = gameOver NewGame || holdsKing target.
Proof.
  apply (malformed_line_erases_corner (λ l, l) "resign" NewGame).
  - exact NewGame_wf.
  - reflexivity.
Defined.



(** X17. [play] does not panic: in every state reached from a new game, each
    input that can happen there (the loop test, an event while polling, a
    line or a read error while the reader runs) is handled without an index
    out of range or a division by zero; the only panic is the one the code
    raises itself on the error event of the terminal. *)
Theorem play_never_panics (TrimSpace : string → string) (player : string)
    (inputs : list Input) (trace : list Sys) (s : Sys) (i : Input) :
  run TrimSpace player initial inputs = Some trace →
  last (initial :: trace) = Some s →
  enabled s i = true → i ≠ Local EventError →
  is_Some (step TrimSpace player s i).
Proof.
  intros Hrun Hlast Hen Herr.
  apply step_progress; [|exact Hen|exact Herr].
  exact (proj2 (run_inv TrimSpace player inputs initial trace initial_inv Hrun)
           s Hlast).
Qed.

Lemma play_never_panics_witness :
  ∃ trace s,
    run (λ l, l) "white" initial
      [LoopTest; Local (EventMouse MouseLeft 32 24); LoopTest] = Some trace ∧
    last (initial :: trace) = Some s ∧
    is_Some (step (λ l, l) "white" s (NetLine "not a move")).
Proof.
  eexists _, _. split; [vm_compute; reflexivity|]. split; [reflexivity|].
  eapply (play_never_panics (λ l, l) "white"
            [LoopTest; Local (EventMouse MouseLeft 32 24); LoopTest]).
  - vm_compute. reflexivity.
  - reflexivity.
  - reflexivity.
  - discriminate.
Defined.

(** X18. Nothing clears [gameOver]: from a reached state in which the flag is
    set, every step of [play] (a further remote move included) leaves it
    set. *)
Theorem gameOver_is_never_cleared (TrimSpace : string → string)
    (player : string) (inputs : list Input) (trace : list Sys) (s s' : Sys)
    (i : Input) :
  run TrimSpace player initial inputs = Some trace →
  last (initial :: trace) = Some s →
  step TrimSpace player s i = Some s' →
  gameOver (game s) = true → gameOver (game s') = true.
Proof.
  intros Hrun Hlast Hstep.
  apply (step_inv TrimSpace player s s' i); [|exact Hstep].
  exact (proj2 (run_inv TrimSpace player inputs initial trace initial_inv Hrun)
           s Hlast).
Qed.

Lemma gameOver_is_never_cleared_witness :
  ∃ trace s s',
    run (λ l, l) "white" initial [NetLine "d1e8"] = Some trace ∧
    last (initial :: trace) = Some s ∧
    step (λ l, l) "white" s (NetLine "a2a3") = Some s' ∧
    gameOver (game s) = true ∧ gameOver (game s') = true.
Proof.
  eexists _, _, _. split; [vm_compute; reflexivity|]. split; [reflexivity|].
  split; [vm_compute; reflexivity|]. split; [reflexivity|].
  eapply (gameOver_is_never_cleared (λ l, l) "white" [NetLine "d1e8"] _ _ _
            (NetLine "a2a3")).
  - vm_compute. reflexivity.
  - reflexivity.
  - vm_compute. reflexivity.
  - reflexivity.
Defined.

(** X19. The symbol of a piece is drawn inside the cells of its own square
    (for cells at least two wide and two high), so a left click on the symbol
    is handled on the square of that piece. *)
Theorem click_on_piece_symbol (player : string) (g : Game) (x y : Z) :
  2 <= squareWidth g → 2 <= squareHeight g → inRange y x →
  pieceCell g x y ∈ squareCells g x y ∧
  handleEvent player
    (EventMouse MouseLeft (pieceCell g x y).1 (pieceCell g x y).2) g
  = '(g', moveStr) ← handleMouseClick player (withCursor x y g);
    Some (g', if String.eqb moveStr "" then [] else [moveStr], false).
Proof.
  intros Hw Hh [Hy Hx].
  assert (0 <= Z.quot (squareWidth g) 2 - 1 < squareWidth g) as Hj.
  { rewrite Z.quot_div_nonneg by lia.
    pose proof (Z.div_le_lower_bound (squareWidth g) 2 1).
    pose proof (Z.div_lt (squareWidth g) 2). lia. }
  assert (0 <= Z.quot (squareHeight g) 2 - 1 < squareHeight g) as Hi.
  { rewrite Z.quot_div_nonneg by lia.
    pose proof (Z.div_le_lower_bound (squareHeight g) 2 1).
    pose proof (Z.div_lt (squareHeight g) 2). lia. }
  unfold pieceCell. cbn [fst snd]. split.
  - unfold squareCells.
    apply list_elem_of_bind. exists (Z.quot (squareHeight g) 2 - 1).
    split; [|apply elem_of_seqZ; lia].
    apply list_elem_of_bind. exists (Z.quot (squareWidth g) 2 - 1).
    split; [|apply elem_of_seqZ; lia].
    apply list_elem_of_singleton. f_equal; lia.
  - unfold handleEvent.
    replace (x * squareWidth g + squareWidth g ÷ 2 - 1)
      with (x * squareWidth g + (squareWidth g ÷ 2 - 1)) by lia.
    replace (y * squareHeight g + squareHeight g ÷ 2 - 1)
      with (y * squareHeight g + (squareHeight g ÷ 2 - 1)) by lia.
    rewrite (cell_to_square x (squareWidth g)) by lia.
    rewrite (cell_to_square y (squareHeight g)) by lia.
    simpl. rewrite !clamp07_id by lia. reflexivity.
Qed.

Lemma click_on_piece_symbol_witness :
  pieceCell NewGame 4 6 ∈ squareCells NewGame 4 6 ∧
  handleEvent "white"
    (EventMouse MouseLeft (pieceCell NewGame 4 6).1 (pieceCell NewGame 4 6).2)
    NewGame
  = '(g', moveStr) ← handleMouseClick "white" (withCursor 4 6 NewGame);
    Some (g', if String.eqb moveStr "" then [] else [moveStr], false).
Proof.
  apply (click_on_piece_symbol "white" NewGame 4 6).
  - simpl. lia.
  - simpl. lia.
  - unfold inRange. lia.
Defined.

(** X20. A pawn that has reached the far rank (row 0 for white, row 7 for
    black) has no destination at all: it is neither promoted nor can it be
    moved again by the interface. *)
Theorem pawn_on_far_rank_is_stuck (g : Game) (y x : Z) (c : string) :
  wfBoard (board g) →
  (c = "white" ∧ y = 0) ∨ (c = "black" ∧ y = 7) →
  boardAt (board g) y x = Some (Some (mkPiece c (pieces (c +:+ "_pawn")))) →
  ∃ g', calculateLegalMoves y x g = Some g' ∧
        ∀ k, mapGet (legalMoves g') k = false.
Proof.
  intros Hwf Hc Hp.
  destruct (calculateLegalMoves_adds y x _ g Hwf Hp) as (g' & Hg' & [_ Hk]).
  exists g'. split; [exact Hg'|]. intros k.
  destruct (mapGet (legalMoves g') k) eqn:Hget; [exfalso|reflexivity].
  apply Hk in Hget as [Hold|(nx & ny & _ & Hmoves)].
  { simpl in Hold. by rewrite mapGet_empty in Hold. }
  apply movesOf_pawn in Hmoves; [|destruct Hc as [[-> _]|[-> _]]; auto].
  destruct (pawnReach_sound _ _ _ _ _ _ Hwf Hmoves) as [[Hny _] _].
  assert (emptyAt (board g) (y + pawnDir c) x → False) as Hfwd.
  { intros [Hr _]%emptyAt_inRange; [|exact Hwf].
    destruct Hc as [[-> ->]|[-> ->]]; unfold pawnDir in Hr; simpl in Hr; lia. }
  destruct Hmoves as [(_ & -> & _)|[(_ & _ & _ & He & _)|(_ & -> & _)]];
    [|by apply Hfwd|];
    destruct Hc as [[-> ->]|[-> ->]]; unfold pawnDir in Hny; simpl in Hny; lia.
Qed.

Lemma pawn_on_far_rank_is_stuck_witness :
  ∃ g', calculateLegalMoves 0 0
          (withBoard (<[0%nat := [Some (mkPiece "white" (pieces "white_pawn"));
                               None; None; None; None; None; None; None]]>
                        (board NewGame)) NewGame) = Some g' ∧
        ∀ k, mapGet (legalMoves g') k = false.
Proof.
  apply (pawn_on_far_rank_is_stuck
           (withBoard (<[0%nat := [Some (mkPiece "white" (pieces "white_pawn"));
                                None; None; None; None; None; None; None]]>
                         (board NewGame)) NewGame) 0 0 "white").
  - split; [reflexivity|]. repeat constructor.
  - left. split; reflexivity.
  - reflexivity.
Defined.

Lemma applyMove_currentPlayer (fromY fromX toY toX : Z) (g g' : Game) :
  applyMove fromY fromX toY toX g = Some g' →
  currentPlayer g' = otherPlayer (currentPlayer g).
Proof.
  unfold applyMove, otherPlayer.
  destruct (boardAt (board g) fromY fromX) as [piece|]; [simpl|discriminate].
  destruct (boardAt (board g) toY toX) as [target|]; [simpl|discriminate].
  destruct target as [t|];
    [destruct ((symbol t =? pieces "white_king")
               || (symbol t =? pieces "black_king"))|];
    cbn [board currentPlayer withMessage withGameOver];
    (destruct (boardSet (board g) toY toX piece) as [b1|];
       [simpl|discriminate]);
    (destruct (boardSet b1 fromY fromX None) as [b2|]; [simpl|discriminate]);
    destruct (String.eqb (currentPlayer g) "white");
    intros [= <-]; reflexivity.
Qed.

Lemma otherPlayer_ne (p : string) : otherPlayer p ≠ p.
Proof.
  unfold otherPlayer.
  destruct (String.eqb_spec p "white") as [->|Hne]; [discriminate|].
  congruence.
Qed.

(** X21. Turns alternate on the local side: once a click has produced a move
    (a non-empty move string), the next click of the same player is rejected
    as out of turn, whatever the square, until a move of the opponent has been
    applied. *)
Theorem no_second_local_move (playerColor : string) (g g' : Game)
    (moveStr : string) :
  handleMouseClick playerColor g = Some (g', moveStr) → moveStr ≠ "" →
  currentPlayer g' ≠ playerColor ∧
  ∀ x y, handleMouseClick playerColor (withCursor x y g')
         = Some (withMessage "Not your turn!" (withCursor x y g'), "").
Proof.
  intros Hclick Hmove.
  assert (currentPlayer g' ≠ playerColor) as Hturn.
  { revert Hclick. unfold handleMouseClick. cbv zeta.
    destruct (String.eqb_spec (currentPlayer g) playerColor) as [Heq|Hne];
      simpl; [|intros [= _ <-]; contradiction].
    destruct (negb (selectedX g =? -1)).
    - destruct (mapGet (legalMoves g) (key (cursorX g) (cursorY g)));
        [|intros [= _ <-]; contradiction].
      destruct (applyMove (selectedY g) (selectedX g) (cursorY g) (cursorX g) g)
        as [g1|] eqn:Hg1; [simpl|discriminate].
      intros [= <- _]. simpl.
      rewrite (applyMove_currentPlayer _ _ _ _ _ _ Hg1), Heq.
      apply otherPlayer_ne.
    - destruct (boardAt (board g) (cursorY g) (cursorX g)) as [[p|]|];
        simpl; [|intros [= _ <-]; contradiction|discriminate].
      destruct (String.eqb (color p) (currentPlayer g));
        [|intros [= _ <-]; contradiction].
      destruct (calculateLegalMoves _ _ _); simpl;
        [intros [= _ <-]; contradiction|discriminate]. }
  split; [exact Hturn|]. intros x y.
  unfold handleMouseClick. cbv zeta. simpl.
  apply String.eqb_neq in Hturn. rewrite Hturn. reflexivity.
Qed.

Lemma no_second_local_move_witness :
  ∃ g',
    handleMouseClick "white"
      (withLegalMoves (<[key 4 4 := true]> ∅)
         (withSelected 4 6 (withCursor 4 4 NewGame)))
    = Some (g', "e2e4") ∧
    currentPlayer g' ≠ "white" ∧
    ∀ x y, handleMouseClick "white" (withCursor x y g')
           = Some (withMessage "Not your turn!" (withCursor x y g'), "").
Proof.
  eexists. split; [vm_compute; reflexivity|].
  eapply (no_second_local_move "white"
            (withLegalMoves (<[key 4 4 := true]> ∅)
               (withSelected 4 6 (withCursor 4 4 NewGame))) _ "e2e4").
  - vm_compute. reflexivity.
  - discriminate.
Defined.
